(** * European option calculator: the pricing engine of [main.c]

    A shallow embedding of the Black-Scholes engine ([cdf], the two
    [calculate_standard_normal_variable_*] functions, the price and the four
    Greeks, and [calculateOption]) together with the properties the
    specification states about it.

    Arithmetic model.  A C [double] is read as a real number: rounding and
    overflow are not modelled.  The three operations of the engine that can
    leave the real numbers (a division, [log], [sqrt]) are partial: outside
    their domain the C program computes NaN or an infinity, the embedding
    returns [None].  [M_PI] is read as [PI].

    The input functions of the interactive shell ([validate_input],
    [get_double_input], [get_char_input], [get_user_input]) are embedded
    over a console of unread input and printed texts, with [strtod] as a
    parameter.  [displayOption] (the [%.2f] formatting of doubles) and the
    endless loop of [main] are not embedded. *)

From Stdlib Require Import Reals Lra Lia ZArith Arith Bool Ascii String List.
Import ListNotations.
Open Scope R_scope.

(** ** Partial arithmetic *)

Module Dbl.

(** [a / b]: defined when the divisor is not zero. *)
Definition div (a b : R) : option R :=
  if Req_dec_T b 0 then None else Some (a / b).

(** [log(a)]: defined on the positive reals. *)
Definition log (a : R) : option R :=
  if Rlt_dec 0 a then Some (ln a) else None.

(** [sqrt(a)]: defined on the non-negative reals. *)
Definition sqrt (a : R) : option R :=
  if Rle_dec 0 a then Some (R_sqrt.sqrt a) else None.

Definition bind {A B : Type} (m : option A) (f : A -> option B) : option B :=
  match m with
  | Some a => f a
  | None => None
  end.

End Dbl.

Declare Scope dbl_scope.
Delimit Scope dbl_scope with dbl.
Notation "x <- m ;; k" := (Dbl.bind m (fun x => k))
  (at level 61, m at next level, right associativity) : dbl_scope.

(** ** Data model *)

Record RequestOptionParameters : Type := {
  S : R;          (* Stock price *)
  K : R;          (* Strike price *)
  T : R;          (* Time to expiration (in years) *)
  r : R;          (* Risk-free interest rate *)
  sigma : R;      (* Volatility *)
  type : ascii    (* Option type c for call or p for put *)
}.

Record ResponseOptionParameters : Type := {
  price : R;
  delta : R;
  gamma : R;
  vega : R;
  theta : R
}.

Definition init_option_parameters (S K T r sigma : R) (type : ascii)
  : RequestOptionParameters :=
  {| S := S; K := K; T := T; r := r; sigma := sigma; type := type |}.

(** ** The engine *)

(** [double cdf(double x)].  The divisor [1.0 + 0.3275911 * fabs(x)] is at
    least one (lemma [cdf_divisor_pos]), so the function is total. *)
Definition cdf (x : R) : R :=
  let t := 1.0 / (1.0 + 0.3275911 * Rabs x) in
  let y := 0.254829592 * t + 0.080788966 * t * t + 0.0003238188 * t * t * t in
  let y := 0.39894228 * exp (-0.5 * x * x) * y in
  if Rge_dec x 0.0 then 0.5 + y else 0.5 - y.

Section Engine.
Local Open Scope dbl_scope.

Definition calculate_standard_normal_variable_stock (S K T r sigma : R)
  : option R :=
  q <- Dbl.div S K ;;
  l <- Dbl.log q ;;
  s <- Dbl.sqrt T ;;
  Dbl.div (l + (r + 0.5 * sigma * sigma) * T) (sigma * s).

Definition calculate_standard_normal_variable_strike (d1 T r sigma : R)
  : option R :=
  s <- Dbl.sqrt T ;;
  Some (d1 - sigma * s).

Definition calculate_european_option (d1 d2 S K T r : R) (type : ascii)
  : R :=
  if Ascii.eqb type "c" then
    S * cdf d1 - K * exp (- r * T) * cdf d2
  else
    K * exp (- r * T) * cdf (- d2) - S * cdf (- d1).

Definition calculate_delta (d1 : R) (type : ascii) : R :=
  let option_type : Z := if Ascii.eqb type "c" then 1%Z else (-1)%Z in
  IZR option_type * cdf (IZR option_type * d1).

Definition calculate_gamma (d1 S T sigma : R) : option R :=
  s <- Dbl.sqrt (2 * PI * T) ;;
  Dbl.div (exp (-0.5 * d1 * d1)) (S * sigma * s).

Definition calculate_vega (d1 S T : R) : option R :=
  s <- Dbl.sqrt T ;;
  s2pi <- Dbl.sqrt (2 * PI) ;;
  Dbl.div (S * s * exp (-0.5 * d1 * d1)) s2pi.

Definition calculate_theta (d1 d2 S K T r sigma : R) (type : ascii)
  : option R :=
  let option_type : Z := if Ascii.eqb type "c" then 1%Z else (-1)%Z in
  s <- Dbl.sqrt (2 * PI * T) ;;
  q <- Dbl.div (-0.5 * sigma * S * exp (-0.5 * d1 * d1)) s ;;
  Some (q - IZR option_type * r * K * exp (- r * T)
            * cdf (IZR option_type * d2)).

End Engine.

(** ** Calls made by [calculateOption]

    [calculateOption] is a straight-line sequence of calls.  To speak about
    how often a function is called, the embedding of its body records each
    call it makes in a log, in program order. *)

Inductive engine_fn : Type :=
| Fn_standard_normal_variable_stock
| Fn_standard_normal_variable_strike
| Fn_european_option
| Fn_delta
| Fn_theta
| Fn_gamma
| Fn_vega.

Definition engine_fn_eq_dec (f g : engine_fn) : {f = g} + {f <> g}.
Proof. decide equality. Defined.

Module Traced.

Definition t (A : Type) : Type := option (A * list engine_fn).

Definition ret {A : Type} (a : A) : t A := Some (a, []).

Definition bind {A B : Type} (m : t A) (k : A -> t B) : t B :=
  match m with
  | None => None
  | Some (a, l) =>
      match k a with
      | None => None
      | Some (b, l') => Some (b, l ++ l')
      end
  end.

(** One call of the engine function [f], whose result is [v]. *)
Definition call {A : Type} (f : engine_fn) (v : option A) : t A :=
  match v with
  | None => None
  | Some a => Some (a, [f])
  end.

Definition value {A : Type} (m : t A) : option A := option_map fst m.
Definition calls {A : Type} (m : t A) : option (list engine_fn) :=
  option_map snd m.

End Traced.

Declare Scope traced_scope.
Delimit Scope traced_scope with traced.
Notation "x <- m ;; k" := (Traced.bind m (fun x => k))
  (at level 61, m at next level, right associativity) : traced_scope.

(** [calculateOption], with the log of its calls.  The allocation of the
    response is assumed to succeed (otherwise the program exits). *)
Definition calculateOption_traced (request : RequestOptionParameters)
  : Traced.t ResponseOptionParameters :=
  (d1 <- Traced.call Fn_standard_normal_variable_stock
           (calculate_standard_normal_variable_stock
              (S request) (K request) (T request) (r request)
              (sigma request)) ;;
   d2 <- Traced.call Fn_standard_normal_variable_strike
           (calculate_standard_normal_variable_strike
              d1 (T request) (r request) (sigma request)) ;;
   price <- Traced.call Fn_european_option
           (Some (calculate_european_option
                    d1 d2 (S request) (K request) (T request) (r request)
                    (type request))) ;;
   delta <- Traced.call Fn_delta
           (Some (calculate_delta d1 (type request))) ;;
   theta <- Traced.call Fn_theta
           (calculate_theta
              d1 d2 (S request) (K request) (T request) (r request)
              (sigma request) (type request)) ;;
   gamma <- Traced.call Fn_gamma
           (calculate_gamma d1 (S request) (T request) (sigma request)) ;;
   vega <- Traced.call Fn_vega
           (calculate_vega d1 (S request) (T request)) ;;
   Traced.ret {| price := price; delta := delta; gamma := gamma;
                 vega := vega; theta := theta |})%traced.

(** The response of [calculateOption]: [None] when an operation of the
    computation left the real numbers.  The C code carries an infinity on
    to the later operations, which may absorb it (with K = +0.0 < S all
    five outputs are finite); the embedding does not follow it there, and
    no statement below relies on [None] for K = 0 alone. *)
Definition calculateOption (request : RequestOptionParameters)
  : option ResponseOptionParameters :=
  Traced.value (calculateOption_traced request).

(** ** The formulas of the specification *)

(** d1 = (ln(S/K) + (r + 0.5 sigma^2) T) / (sigma sqrt T), as the
    specification writes it. *)
Definition spec_d1 (S K T r sigma : R) : R :=
  (ln (S / K) + (r + 0.5 * (sigma * sigma)) * T) / (sigma * sqrt T).

(** d2 = d1 - sigma sqrt T. *)
Definition spec_d2 (S K T r sigma : R) : R :=
  spec_d1 S K T r sigma - sigma * sqrt T.

(** The inputs the specification calls valid. *)
Definition valid_request (request : RequestOptionParameters) : Prop :=
  0 < S request /\ 0 < K request /\ 0 < T request /\ 0 < sigma request.

(** The density of the standard normal distribution. *)
Definition normal_density (u : R) : R := exp (- (u * u) / 2) / sqrt (2 * PI).

Definition normal_integrable (a b : R) : Riemann_integrable normal_density a b.
Proof.
  assert (Hc : continuity normal_density).
  { intro x. apply derivable_continuous_pt. unfold normal_density. reg. }
  destruct (Rle_dec a b) as [Hab | Hab].
  - apply continuity_implies_RiemannInt; [exact Hab | intros; apply Hc].
  - apply RiemannInt_P1, continuity_implies_RiemannInt;
      [lra | intros; apply Hc].
Defined.

(** The standard normal distribution function N(x), the probability that a
    standard normal variable is at most x: one half (the mass of the negative
    half-line, the density being even) plus the integral of the density from
    0 to x. *)
Definition standard_normal_cdf (x : R) : R :=
  1 / 2 + RiemannInt (normal_integrable 0 x).

(** ** Auxiliary definitions for the proofs *)

(** The polynomial in [t] that [cdf] evaluates. *)
Definition cdf_poly (t : R) : R :=
  0.254829592 * t + 0.080788966 * t * t + 0.0003238188 * t * t * t.

(** The final value of the local variable [y] of [cdf]. *)
Definition cdf_tail (x : R) : R :=
  0.39894228 * exp (-0.5 * x * x)
  * cdf_poly (1.0 / (1.0 + 0.3275911 * Rabs x)).

(** The value of [y] at [x = 0]. *)
Definition cdf_peak : R :=
  0.39894228 * (0.254829592 + 0.080788966 + 0.0003238188).

(** The value of the local [option_type] of [calculate_delta] and
    [calculate_theta], converted to [double]. *)
Definition option_sign (type : ascii) : R :=
  IZR (if Ascii.eqb type "c" then 1%Z else (-1)%Z).

(** The response in closed form, every output written over the pair
    ([d1], [d2]) of the specification. *)
Definition closed_form (d1 d2 : R) (request : RequestOptionParameters)
  : ResponseOptionParameters :=
  {| price := calculate_european_option d1 d2 (S request) (K request)
                (T request) (r request) (type request);
     delta := calculate_delta d1 (type request);
     gamma := exp (-0.5 * d1 * d1)
              / (S request * sigma request * sqrt (2 * PI * T request));
     vega := S request * sqrt (T request) * exp (-0.5 * d1 * d1)
             / sqrt (2 * PI);
     theta := -0.5 * sigma request * S request * exp (-0.5 * d1 * d1)
              / sqrt (2 * PI * T request)
              - option_sign (type request) * r request * K request
                * exp (- r request * T request)
                * cdf (option_sign (type request) * d2) |}.

(** The calls of one run of [calculateOption], in program order. *)
Definition engine_calls : list engine_fn :=
  [ Fn_standard_normal_variable_stock; Fn_standard_normal_variable_strike;
    Fn_european_option; Fn_delta; Fn_theta; Fn_gamma; Fn_vega ].

(** The requests on which every operation of the engine is defined. *)
Definition in_domain (request : RequestOptionParameters) : Prop :=
  K request <> 0 /\ 0 < S request / K request /\ 0 < T request
  /\ sigma request <> 0.

(** The request with its option type replaced. *)
Definition with_type (request : RequestOptionParameters) (ty : ascii)
  : RequestOptionParameters :=
  init_option_parameters (S request) (K request) (T request) (r request)
    (sigma request) ty.

(** The at-the-money scenario of the specification:
    S = 100, K = 100, T = 1, r = 0.05, sigma = 0.2. *)
Definition reference_request (ty : ascii) : RequestOptionParameters :=
  init_option_parameters 100 100 1 0.05 0.2 ty.


(** A request with d2 = 0, all of whose fields are binary fractions:
    S = K = 100, T = 1, r = 0.125, sigma = 0.5. *)
Definition parity_request (ty : ascii) : RequestOptionParameters :=
  init_option_parameters 100 100 1 0.125 0.5 ty.

(** A short-dated, in-the-money request: S = 200, K = 100, T = 1e-6,
    r = 0.05, sigma = 0.2. *)
Definition short_dated_request (ty : ascii) : RequestOptionParameters :=
  init_option_parameters 200 100 1e-6 0.05 0.2 ty.

(** The request with spot and strike multiplied by [c]. *)
Definition scale_request (c : R) (request : RequestOptionParameters)
  : RequestOptionParameters :=
  init_option_parameters (c * S request) (c * K request) (T request)
    (r request) (sigma request) (type request).

(** ** The interactive shell

    The input functions of [main.c] read standard input with [scanf] and
    write prompts with [printf].  The console is the unread input and the
    texts printed so far.  A call returns, loops forever, or has no defined
    behaviour in C; the loops are written with fuel, which the callers
    provide in sufficient quantity (lemmas [get_char_input_loop_fuel] and
    [get_double_input_loop_fuel]). *)

Record console : Type := {
  stdin : list ascii;
  stdout : list string
}.

Inductive undefined_behaviour : Type :=
| Buffer_overflow        (* a write past the end of [char input[100]] *)
| Uninitialised_read.    (* a read of a variable that was never written *)

Inductive outcome (A : Type) : Type :=
| Returns (a : A) (con : console)
| Diverges
| Undefined (u : undefined_behaviour)
| Out_of_fuel.

Arguments Returns {A} a con.
Arguments Diverges {A}.
Arguments Undefined {A} u.
Arguments Out_of_fuel {A}.

Definition io (A : Type) : Type := console -> outcome A.

Definition io_ret {A : Type} (a : A) : io A := fun con => Returns a con.

Definition io_bind {A B : Type} (m : io A) (k : A -> io B) : io B :=
  fun con =>
    match m con with
    | Returns a con' => k a con'
    | Diverges => Diverges
    | Undefined u => Undefined u
    | Out_of_fuel => Out_of_fuel
    end.

Declare Scope io_scope.
Delimit Scope io_scope with io.
Notation "x <- m ;; k" := (io_bind m (fun x => k))
  (at level 61, m at next level, right associativity) : io_scope.

(** [printf] of a text without conversion specifications. *)
Definition printf (text : string) : io unit :=
  fun con =>
    Returns tt {| stdin := stdin con; stdout := stdout con ++ [text] |}.

(** [isspace] in the "C" locale: space, and the characters 9 to 13. *)
Definition isspace (ch : ascii) : bool :=
  let n := nat_of_ascii ch in
  ((n =? 32) || ((9 <=? n) && (n <=? 13)))%nat.

Definition not_space (ch : ascii) : bool := negb (isspace ch).

(** The white space that [scanf] skips before [%s] and for a blank in the
    format. *)
Fixpoint skip_space (input : list ascii) : list ascii :=
  match input with
  | [] => []
  | ch :: rest => if isspace ch then skip_space rest else input
  end.

(** The characters [%s] stores: up to the next white space or the end. *)
Fixpoint read_token (input : list ascii) : list ascii * list ascii :=
  match input with
  | [] => ([], [])
  | ch :: rest =>
      if isspace ch then ([], input)
      else let (token, rest') := read_token rest in (ch :: token, rest')
  end.

(** [scanf(" %c", value)]: [None] at the end of the input, where nothing
    is stored. *)
Definition scanf_char : io (option ascii) :=
  fun con =>
    match skip_space (stdin con) with
    | [] => Returns None {| stdin := []; stdout := stdout con |}
    | ch :: rest => Returns (Some ch) {| stdin := rest; stdout := stdout con |}
    end.

(** [scanf("%s", input)]: the characters to store, before the terminating
    null character; [None] at the end of the input. *)
Definition scanf_string : io (option (list ascii)) :=
  fun con =>
    match skip_space (stdin con) with
    | [] => Returns None {| stdin := []; stdout := stdout con |}
    | ch :: rest =>
        let (token, rest') := read_token (ch :: rest) in
        Returns (Some token) {| stdin := rest'; stdout := stdout con |}
    end.

Definition newline : string := String "010" EmptyString.

Definition invalid_char_message : string :=
  ("Invalid input. Please enter 'c' for call or 'p' for put." ++ newline)%string.

Definition invalid_double_message : string :=
  ("Invalid input. Please enter a valid double number." ++ newline)%string.

(** [*value == 'c' || *value == 'p'] *)
Definition is_call_or_put (ch : ascii) : bool :=
  Ascii.eqb ch "c" || Ascii.eqb ch "p".

(** The loop of [get_char_input].  [value] is the content of [*value],
    [None] while it was never written.  At the end of the input [scanf]
    stores nothing: the test reads the old [*value], and when it fails the
    loop repeats in the same state for ever. *)
Fixpoint get_char_input_loop (fuel : nat) (message : string)
    (value : option ascii) : io ascii :=
  match fuel with
  | O => fun _ => Out_of_fuel
  | Datatypes.S fuel' =>
      (_ <- printf message ;;
       read <- scanf_char ;;
       match (match read with Some ch => Some ch | None => value end) with
       | None => fun _ => Undefined Uninitialised_read
       | Some ch =>
           if is_call_or_put ch then io_ret ch
           else
             match read with
             | None => fun _ => Diverges
             | Some _ =>
                 _ <- printf invalid_char_message ;;
                 get_char_input_loop fuel' message (Some ch)
             end
       end)%io
  end.

Definition get_char_input (message : string) (value : option ascii)
  : io ascii :=
  fun con =>
    get_char_input_loop (Datatypes.S (length (stdin con))) message value con.

Definition NUL : ascii := "000".

(** The string a [char] array holds: its bytes before the first null. *)
Fixpoint c_string (bytes : list ascii) : list ascii :=
  match bytes with
  | [] => []
  | ch :: rest => if Ascii.eqb ch NUL then [] else ch :: c_string rest
  end.

(** Each rejected character that is not white space costs one complaint
    and one new prompt. *)
Definition complaints (message : string) (rejected : list ascii)
  : list string :=
  flat_map (fun _ => [invalid_char_message; message])
    (filter not_space rejected).

(** A word: a non-empty run of characters that are not white space. *)
Definition is_word (token : list ascii) : bool :=
  match token with
  | [] => false
  | _ :: _ => forallb not_space token
  end.

(** What may follow a word: the end of the input, or white space. *)
Definition is_word_end (rest : list ascii) : bool :=
  match rest with
  | [] => true
  | ch :: _ => isspace ch
  end.

(** The input made of rejected words, each with its white space. *)
Definition rejected_input (rejected : list (list ascii * list ascii))
  : list ascii :=
  flat_map (fun entry => fst entry ++ snd entry) rejected.

(** Each rejected word costs one complaint and one new prompt. *)
Definition double_complaints (message : string)
    (rejected : list (list ascii * list ascii)) : list string :=
  flat_map (fun _ => [invalid_double_message; message]) rejected.

(** A text without conversion specification, which [printf] prints as it
    is when it is passed as the format. *)
Definition percent_free (message : string) : bool :=
  forallb (fun ch => negb (Ascii.eqb ch "%")) (list_ascii_of_string message).

Section Strtod.

(** [strtod] belongs to the C library: it is a parameter, which gives the
    converted value and the number of characters converted
    ([endptr - input]).  The values are kept abstract: [strtod] also
    produces infinities and NaN. *)
Context {double : Type} (strtod : list ascii -> double * nat).

(** [validate_input]: the value stored in [*value] and the result. *)
Definition validate_input (input : list ascii) : double * bool :=
  let (value, consumed) := strtod input in
  (value,
   negb (consumed =? 0)%nat
   && match nth_error (input ++ [NUL]) consumed with
      | Some ch => Ascii.eqb ch NUL
      | None => false
      end).

(** The loop of [get_double_input].  [input] is the content of the local
    array [char input[100]], [None] while it was never written.  The
    function is declared [double] but has no [return]; its result is the
    value left in [*value]. *)
Fixpoint get_double_input_loop (fuel : nat) (message : string)
    (input : option (list ascii)) : io double :=
  match fuel with
  | O => fun _ => Out_of_fuel
  | Datatypes.S fuel' =>
      (_ <- printf message ;;
       read <- scanf_string ;;
       match read with
       | Some token =>
           if (100 <=? length token)%nat then
             fun _ => Undefined Buffer_overflow
           else
             let (value, ok) := validate_input (c_string token) in
             if ok then io_ret value
             else
               _ <- printf invalid_double_message ;;
               get_double_input_loop fuel' message (Some (c_string token))
       | None =>
           match input with
           | None => fun _ => Undefined Uninitialised_read
           | Some text =>
               let (value, ok) := validate_input text in
               if ok then io_ret value else fun _ => Diverges
           end
       end)%io
  end.

(** A word of the input that [get_double_input] rejects, with the white
    space after it: the word is not empty, holds no white space, fits the
    array and is not accepted; the white space is not empty. *)
Definition rejected_word (entry : list ascii * list ascii) : bool :=
  let (token, blank) := entry in
  is_word token && (length token <? 100)%nat
  && negb (snd (validate_input (c_string token)))
  && negb (length blank =? 0)%nat && forallb isspace blank.

Definition get_double_input (message : string) : io double :=
  fun con =>
    get_double_input_loop (Datatypes.S (length (stdin con))) message None con.

Definition get_user_input
  : io (double * double * double * double * double * ascii) :=
  (S <- get_double_input "Enter Stock price (S): " ;;
   K <- get_double_input "Enter Strike price (K): " ;;
   T <- get_double_input "Enter Time to expiration (T): " ;;
   r <- get_double_input "Enter Risk-free interest rate (r): " ;;
   sigma <- get_double_input "Enter Volatility (sigma): " ;;
   type <- get_char_input "Enter Option type (c for call, p for put): " None ;;
   io_ret (S, K, T, r, sigma, type))%io.

End Strtod.


(** A stand-in for [strtod] in examples, with natural numbers as values:
    the value is the length of the text and the number of characters
    converted is the number of its digits 1, so that exactly the texts
    made of the digit 1 are converted entirely. *)
Definition ones (text : list ascii) : nat * nat :=
  (length text, length (filter (fun ch => Ascii.eqb ch "1") text)).

(** ** Partial arithmetic: when it is defined *)

Lemma div_defined (a b : R) : b <> 0 -> Dbl.div a b = Some (a / b).
Proof. intros Hb. unfold Dbl.div. destruct (Req_dec_T b 0); [tauto | reflexivity]. Qed.

Lemma div_undefined (a : R) : Dbl.div a 0 = None.
Proof. unfold Dbl.div. destruct (Req_dec_T 0 0); [reflexivity | tauto]. Qed.

Lemma div_None (a b : R) : Dbl.div a b = None <-> b = 0.
Proof.
  unfold Dbl.div. destruct (Req_dec_T b 0); split; intros; try tauto; discriminate.
Qed.

Lemma log_defined (a : R) : 0 < a -> Dbl.log a = Some (ln a).
Proof. intros Ha. unfold Dbl.log. destruct (Rlt_dec 0 a); [reflexivity | tauto]. Qed.

Lemma log_None (a : R) : Dbl.log a = None <-> a <= 0.
Proof.
  unfold Dbl.log. destruct (Rlt_dec 0 a); split; intros; try lra; try discriminate.
  reflexivity.
Qed.

Lemma sqrt_defined (a : R) : 0 <= a -> Dbl.sqrt a = Some (sqrt a).
Proof. intros Ha. unfold Dbl.sqrt. destruct (Rle_dec 0 a); [reflexivity | tauto]. Qed.

Lemma sqrt_None (a : R) : Dbl.sqrt a = None <-> a < 0.
Proof.
  unfold Dbl.sqrt. destruct (Rle_dec 0 a); split; intros; try lra; try discriminate.
  reflexivity.
Qed.

(** ** The function [cdf] *)

Lemma cdf_divisor_pos (x : R) : 1 <= 1.0 + 0.3275911 * Rabs x.
Proof. pose proof (Rabs_pos x). lra. Qed.

Lemma cdf_t_range (x : R) :
  0 < 1.0 / (1.0 + 0.3275911 * Rabs x) <= 1.
Proof.
  pose proof (cdf_divisor_pos x) as H.
  set (d := 1.0 + 0.3275911 * Rabs x) in *.
  assert (Hi : 0 < / d) by (apply Rinv_0_lt_compat; lra).
  assert (Hd : d * / d = 1) by (apply Rinv_r; lra).
  unfold Rdiv. split; nra.
Qed.

Lemma cdf_poly_range (t : R) :
  0 < t <= 1 ->
  0 < cdf_poly t <= 0.254829592 + 0.080788966 + 0.0003238188.
Proof.
  intros [H0 H1]. unfold cdf_poly.
  assert (0 < t * t <= 1) by nra.
  assert (0 < t * t * t <= 1) by nra.
  split; nra.
Qed.

Lemma exp_nonpos_le_1 (u : R) : u <= 0 -> 0 < exp u <= 1.
Proof.
  intros Hu. split; [apply exp_pos |].
  destruct (Req_dec_T u 0) as [-> | Hn].
  - rewrite exp_0. lra.
  - rewrite <- exp_0. left. apply exp_increasing. lra.
Qed.

Lemma cdf_tail_range (x : R) : 0 < cdf_tail x <= cdf_peak.
Proof.
  unfold cdf_tail, cdf_peak.
  pose proof (cdf_poly_range _ (cdf_t_range x)) as [Hp0 Hp1].
  assert (Hx : -0.5 * x * x <= 0) by nra.
  pose proof (exp_nonpos_le_1 _ Hx) as [He0 He1].
  split; nra.
Qed.

Lemma cdf_tail_even (x : R) : cdf_tail (- x) = cdf_tail x.
Proof.
  unfold cdf_tail. rewrite Rabs_Ropp.
  replace (-0.5 * - x * - x) with (-0.5 * x * x) by ring.
  reflexivity.
Qed.

Lemma cdf_tail_0 : cdf_tail 0 = cdf_peak.
Proof.
  unfold cdf_tail, cdf_peak, cdf_poly. rewrite Rabs_R0.
  replace (-0.5 * 0 * 0) with 0 by ring. rewrite exp_0. lra.
Qed.

Lemma cdf_nonneg (x : R) : 0 <= x -> cdf x = 0.5 + cdf_tail x.
Proof.
  intros Hx. unfold cdf, cdf_tail, cdf_poly.
  destruct (Rge_dec x 0.0); [reflexivity | lra].
Qed.

Lemma cdf_neg (x : R) : x < 0 -> cdf x = 0.5 - cdf_tail x.
Proof.
  intros Hx. unfold cdf, cdf_tail, cdf_poly.
  destruct (Rge_dec x 0.0); [lra | reflexivity].
Qed.

Lemma cdf_0 : cdf 0 = 0.5 + cdf_peak.
Proof. rewrite cdf_nonneg by lra. rewrite cdf_tail_0. reflexivity. Qed.

Lemma cdf_range (x : R) : 0.5 - cdf_peak <= cdf x <= 0.5 + cdf_peak.
Proof.
  pose proof (cdf_tail_range x) as [H0 H1].
  destruct (Rle_dec 0 x) as [Hx | Hx].
  - rewrite cdf_nonneg by exact Hx. lra.
  - rewrite cdf_neg by lra. lra.
Qed.

Lemma cdf_peak_value : 0.13402 < cdf_peak < 0.13403.
Proof. unfold cdf_peak. lra. Qed.

Lemma cdf_reflect (x : R) : x <> 0 -> cdf x + cdf (- x) = 1.
Proof.
  intros Hx. destruct (Rlt_dec 0 x) as [Hp | Hp].
  - rewrite cdf_nonneg by lra. rewrite (cdf_neg (- x)) by lra.
    rewrite cdf_tail_even. lra.
  - rewrite cdf_neg by lra. rewrite (cdf_nonneg (- x)) by lra.
    rewrite cdf_tail_even. lra.
Qed.

(** ** The engine on its domain *)

Lemma sqrt_2PI_pos : 0 < sqrt (2 * PI).
Proof. apply sqrt_lt_R0. pose proof PI_RGT_0. lra. Qed.

Lemma sqrt_2PI_T_pos (T : R) : 0 < T -> 0 < sqrt (2 * PI * T).
Proof. intros HT. apply sqrt_lt_R0. pose proof PI_RGT_0. nra. Qed.

Lemma valid_in_domain (request : RequestOptionParameters) :
  valid_request request -> in_domain request.
Proof.
  intros (HS & HK & HT & Hs). repeat split; try lra.
  apply Rdiv_lt_0_compat; assumption.
Qed.

Lemma stock_defined (S K T r sigma : R) :
  K <> 0 -> 0 < S / K -> 0 < T -> sigma <> 0 ->
  calculate_standard_normal_variable_stock S K T r sigma
  = Some (spec_d1 S K T r sigma).
Proof.
  intros HK HSK HT Hs. unfold calculate_standard_normal_variable_stock.
  rewrite div_defined by exact HK. cbn [Dbl.bind].
  rewrite log_defined by exact HSK. cbn [Dbl.bind].
  rewrite sqrt_defined by lra. cbn [Dbl.bind].
  assert (Hq : 0 < sqrt T) by (apply sqrt_lt_R0; exact HT).
  rewrite div_defined by nra.
  unfold spec_d1. do 2 f_equal. ring.
Qed.

Lemma strike_defined (d1 T r sigma : R) :
  0 <= T ->
  calculate_standard_normal_variable_strike d1 T r sigma
  = Some (d1 - sigma * sqrt T).
Proof.
  intros HT. unfold calculate_standard_normal_variable_strike.
  rewrite sqrt_defined by exact HT. reflexivity.
Qed.

Lemma gamma_defined (d1 S T sigma : R) :
  S <> 0 -> 0 < T -> sigma <> 0 ->
  calculate_gamma d1 S T sigma
  = Some (exp (-0.5 * d1 * d1) / (S * sigma * sqrt (2 * PI * T))).
Proof.
  intros HS HT Hs. unfold calculate_gamma.
  pose proof (sqrt_2PI_T_pos T HT) as Hq. pose proof PI_RGT_0 as Hpi.
  rewrite sqrt_defined by nra. cbn [Dbl.bind].
  rewrite div_defined; [reflexivity |].
  apply Rmult_integral_contrapositive_currified; [| lra].
  apply Rmult_integral_contrapositive_currified; assumption.
Qed.

Lemma vega_defined (d1 S T : R) :
  0 <= T ->
  calculate_vega d1 S T
  = Some (S * sqrt T * exp (-0.5 * d1 * d1) / sqrt (2 * PI)).
Proof.
  intros HT. unfold calculate_vega.
  pose proof sqrt_2PI_pos as Hq. pose proof PI_RGT_0 as Hpi.
  rewrite sqrt_defined by exact HT. cbn [Dbl.bind].
  rewrite sqrt_defined by lra. cbn [Dbl.bind].
  rewrite div_defined by lra. reflexivity.
Qed.

Lemma theta_defined (d1 d2 S K T r sigma : R) (type : ascii) :
  0 < T ->
  calculate_theta d1 d2 S K T r sigma type
  = Some (-0.5 * sigma * S * exp (-0.5 * d1 * d1) / sqrt (2 * PI * T)
          - option_sign type * r * K * exp (- r * T)
            * cdf (option_sign type * d2)).
Proof.
  intros HT. unfold calculate_theta, option_sign.
  pose proof (sqrt_2PI_T_pos T HT) as Hq. pose proof PI_RGT_0 as Hpi.
  rewrite sqrt_defined by nra. cbn [Dbl.bind].
  rewrite div_defined by lra. reflexivity.
Qed.

Section OnDomain.

Variable request : RequestOptionParameters.
Hypothesis Hdom : in_domain request.

Let d1 : R :=
  spec_d1 (S request) (K request) (T request) (r request) (sigma request).
Let d2 : R :=
  spec_d2 (S request) (K request) (T request) (r request) (sigma request).

Lemma domain_S_nonzero : S request <> 0.
Proof.
  destruct Hdom as (_ & HSK & _). intros E.
  rewrite E in HSK. unfold Rdiv in HSK. lra.
Qed.

Lemma calculateOption_traced_defined :
  calculateOption_traced request
  = Some (closed_form d1 d2 request, engine_calls).
Proof.
  pose proof domain_S_nonzero as HS.
  destruct Hdom as (HK & HSK & HT & Hs).
  unfold calculateOption_traced, d1, d2, spec_d2.
  rewrite stock_defined by assumption. cbn [Traced.call Traced.bind].
  rewrite strike_defined by lra. cbn [Traced.call Traced.bind].
  rewrite theta_defined by assumption.
  rewrite gamma_defined by assumption.
  rewrite vega_defined by lra.
  reflexivity.
Qed.

Lemma calculateOption_defined :
  calculateOption request = Some (closed_form d1 d2 request).
Proof.
  unfold calculateOption.
  rewrite calculateOption_traced_defined. reflexivity.
Qed.

End OnDomain.

(** ** Option type *)

Lemma option_sign_call : option_sign "c" = 1.
Proof. reflexivity. Qed.

Lemma option_sign_other (ty : ascii) : ty <> "c"%char -> option_sign ty = -1.
Proof.
  intros H. unfold option_sign.
  apply Ascii.eqb_neq in H. rewrite H. reflexivity.
Qed.

Lemma calculate_delta_sign (d1 : R) (ty : ascii) :
  calculate_delta d1 ty = option_sign ty * cdf (option_sign ty * d1).
Proof. reflexivity. Qed.

Lemma calculate_delta_call (d1 : R) : calculate_delta d1 "c" = cdf d1.
Proof.
  rewrite calculate_delta_sign, option_sign_call.
  rewrite !Rmult_1_l. reflexivity.
Qed.

Lemma calculate_delta_other (d1 : R) (ty : ascii) :
  ty <> "c"%char -> calculate_delta d1 ty = - cdf (- d1).
Proof.
  intros H. rewrite calculate_delta_sign, (option_sign_other ty H).
  replace (-1 * d1) with (- d1) by ring. ring.
Qed.

Lemma european_option_other (d1 d2 S K T r : R) (ty : ascii) :
  ty <> "c"%char ->
  calculate_european_option d1 d2 S K T r ty
  = K * exp (- r * T) * cdf (- d2) - S * cdf (- d1).
Proof.
  intros H. unfold calculate_european_option.
  apply Ascii.eqb_neq in H. rewrite H. reflexivity.
Qed.

Lemma theta_other (d1 d2 S K T r sigma : R) (ty : ascii) :
  ty <> "c"%char ->
  calculate_theta d1 d2 S K T r sigma ty
  = calculate_theta d1 d2 S K T r sigma "p".
Proof.
  intros H. unfold calculate_theta.
  apply Ascii.eqb_neq in H. rewrite H. reflexivity.
Qed.

(** ** The claims about [cdf] *)

(** C10.  [cdf] stays uniformly close to one half: for every real x,
    |cdf(x) - 0.5| <= 0.39894228 * (0.254829592 + 0.080788966 + 0.0003238188),
    which is about 0.13403; so cdf(x) is never below about 0.366 nor above
    about 0.634, and the delta of a call never exceeds about 0.634. *)
Theorem cdf_uniformly_near_half (x : R) :
  Rabs (cdf x - 0.5)
  <= 0.39894228 * (0.254829592 + 0.080788966 + 0.0003238188)
  /\ 0.3659 < cdf x < 0.6341
  /\ calculate_delta x "c" < 0.6341.
Proof.
  pose proof (cdf_range x) as [Hl Hu].
  pose proof cdf_peak_value as [Pl Pu].
  rewrite calculate_delta_call.
  fold cdf_peak.
  repeat split; try lra.
  apply Rabs_le. lra.
Qed.

(** C4, at the failing input x = 0.  Both [cdf(0)] and [cdf(-0)] take the
    branch [x >= 0.0] and return 0.5 + y with y about 0.134, so the sum
    misses 1.0 by more than 0.26; the tolerance of the claim is 1e-7. *)
Theorem cdf_symmetry_fails_at_zero :
  cdf 0 + cdf (- 0) = 1.0 + 2 * cdf_peak
  /\ Rabs (cdf 0 + cdf (- 0) - 1.0) > 0.26.
Proof.
  rewrite Ropp_0, cdf_0.
  pose proof cdf_peak_value as [Pl Pu].
  split; [lra |].
  rewrite Rabs_pos_eq by lra. lra.
Qed.

(** C1, at the failing input x = 0.  The standard normal distribution
    function is one half at 0; [cdf(0)] is about 0.634, off by more than
    0.134, where the claim allows about 1e-7. *)
Theorem cdf_misses_normal_cdf_at_zero :
  standard_normal_cdf 0 = 0.5
  /\ Rabs (cdf 0 - standard_normal_cdf 0) > 0.134.
Proof.
  assert (H : standard_normal_cdf 0 = 0.5).
  { unfold standard_normal_cdf. rewrite RiemannInt_P9. lra. }
  split; [exact H |].
  rewrite H, cdf_0.
  pose proof cdf_peak_value as [Pl Pu].
  rewrite Rabs_pos_eq by lra. lra.
Qed.

(** ** The claims about [calculateOption] on valid requests *)

(** C6.  Delta bounds.  On every valid request (S, K, T, sigma > 0) the
    engine returns a response whose delta is sign * cdf(sign * d1), with
    sign = +1 for a Call and -1 for a Put; the delta of a Call lies in
    [0, 1] and the delta of a Put lies in [-1, 0]. *)
Theorem delta_bounds (request : RequestOptionParameters) :
  valid_request request ->
  exists response,
    calculateOption request = Some response
    /\ (let d1 := spec_d1 (S request) (K request) (T request) (r request)
                    (sigma request) in
        (type request = "c"%char ->
         delta response = 1 * cdf (1 * d1) /\ 0 <= delta response <= 1)
        /\ (type request = "p"%char ->
            delta response = -1 * cdf (-1 * d1)
            /\ -1 <= delta response <= 0)).
Proof.
  intros Hv. eexists. split.
  - apply calculateOption_defined, valid_in_domain, Hv.
  - cbn [closed_form delta]. cbv zeta.
    set (d1 := spec_d1 _ _ _ _ _).
    pose proof cdf_peak_value as [Pl Pu].
    split; intros Hty; rewrite Hty.
    + rewrite calculate_delta_call, !Rmult_1_l.
      pose proof (cdf_range d1). split; [reflexivity | lra].
    + rewrite calculate_delta_other by discriminate.
      replace (-1 * d1) with (- d1) by ring.
      pose proof (cdf_range (- d1)). split; [ring | lra].
Qed.

Lemma delta_bounds_witness :
  exists response,
    calculateOption (reference_request "c") = Some response
    /\ (let d1 := spec_d1 100 100 1 0.05 0.2 in
        ("c"%char = "c"%char ->
         delta response = 1 * cdf (1 * d1) /\ 0 <= delta response <= 1)
        /\ ("c"%char = "p"%char ->
            delta response = -1 * cdf (-1 * d1)
            /\ -1 <= delta response <= 0)).
Proof.
  apply (delta_bounds (reference_request "c")).
  unfold valid_request; simpl; lra.
Defined.

(** C9.  A request whose option-type character is anything but 'c' is
    priced as a Put: price, delta and theta (and the whole response) are
    those of the same request with type 'p'.  No character is rejected:
    the response exists exactly when that of the Put does. *)
Theorem other_type_is_put (request : RequestOptionParameters) :
  type request <> "c"%char ->
  calculateOption request = calculateOption (with_type request "p")
  /\ (valid_request request ->
      exists response, calculateOption request = Some response)
  /\ forall d1 d2 : R,
      calculate_european_option d1 d2 (S request) (K request) (T request)
        (r request) (type request)
      = calculate_european_option d1 d2 (S request) (K request) (T request)
          (r request) "p"
      /\ calculate_delta d1 (type request) = calculate_delta d1 "p"
      /\ calculate_theta d1 d2 (S request) (K request) (T request)
           (r request) (sigma request) (type request)
         = calculate_theta d1 d2 (S request) (K request) (T request)
             (r request) (sigma request) "p".
Proof.
  intros Hty.
  assert (Hp : "p"%char <> "c"%char) by discriminate.
  assert (Hfn : forall d1 d2 : R,
      calculate_european_option d1 d2 (S request) (K request) (T request)
        (r request) (type request)
      = calculate_european_option d1 d2 (S request) (K request) (T request)
          (r request) "p"
      /\ calculate_delta d1 (type request) = calculate_delta d1 "p"
      /\ calculate_theta d1 d2 (S request) (K request) (T request)
           (r request) (sigma request) (type request)
         = calculate_theta d1 d2 (S request) (K request) (T request)
             (r request) (sigma request) "p").
  { intros d1 d2. repeat split.
    - rewrite !european_option_other by assumption. reflexivity.
    - rewrite !calculate_delta_other by assumption. reflexivity.
    - apply theta_other, Hty. }
  split; [| split; [| exact Hfn]].
  2: { intros Hv. eexists. apply calculateOption_defined, valid_in_domain, Hv. }
  unfold calculateOption, calculateOption_traced, with_type,
    init_option_parameters.
  cbn [S K T r sigma type].
  destruct (calculate_standard_normal_variable_stock _ _ _ _ _) as [d1 |];
    [| reflexivity].
  cbn [Traced.call Traced.bind].
  destruct (calculate_standard_normal_variable_strike _ _ _ _) as [d2 |];
    [| reflexivity].
  cbn [Traced.call Traced.bind].
  destruct (Hfn d1 d2) as (-> & -> & ->). reflexivity.
Qed.

Lemma other_type_is_put_witness :
  calculateOption (reference_request "x")
  = calculateOption (with_type (reference_request "x") "p")
  /\ (valid_request (reference_request "x") ->
      exists response, calculateOption (reference_request "x") = Some response)
  /\ forall d1 d2 : R,
      calculate_european_option d1 d2 100 100 1 0.05 "x"
      = calculate_european_option d1 d2 100 100 1 0.05 "p"
      /\ calculate_delta d1 "x" = calculate_delta d1 "p"
      /\ calculate_theta d1 d2 100 100 1 0.05 0.2 "x"
         = calculate_theta d1 d2 100 100 1 0.05 0.2 "p".
Proof.
  apply (other_type_is_put (reference_request "x")).
  simpl. discriminate.
Defined.

(** C5.  On every valid request the engine computes
    d1 = (ln(S/K) + (r + 0.5 sigma^2) T) / (sigma sqrt T) and
    d2 = d1 - sigma sqrt T, calls each of the two functions that compute
    them exactly once, and derives price, delta, gamma, vega and theta from
    that one pair. *)
Theorem one_d1_d2_pair_per_request (request : RequestOptionParameters) :
  valid_request request ->
  let S := S request in
  let K := K request in
  let T := T request in
  let r := r request in
  let sigma := sigma request in
  let d1 := (ln (S / K) + (r + 0.5 * (sigma * sigma)) * T)
            / (sigma * sqrt T) in
  let d2 := d1 - sigma * sqrt T in
  calculate_standard_normal_variable_stock S K T r sigma = Some d1
  /\ calculate_standard_normal_variable_strike d1 T r sigma = Some d2
  /\ exists response calls,
      calculateOption_traced request = Some (response, calls)
      /\ calculateOption request = Some response
      /\ count_occ engine_fn_eq_dec calls Fn_standard_normal_variable_stock
         = 1%nat
      /\ count_occ engine_fn_eq_dec calls Fn_standard_normal_variable_strike
         = 1%nat
      /\ price response
         = calculate_european_option d1 d2 S K T r (type request)
      /\ delta response = calculate_delta d1 (type request)
      /\ calculate_gamma d1 S T sigma = Some (gamma response)
      /\ calculate_vega d1 S T = Some (vega response)
      /\ calculate_theta d1 d2 S K T r sigma (type request)
         = Some (theta response).
Proof.
  intros Hv. cbv zeta.
  pose proof (valid_in_domain request Hv) as Hd.
  destruct Hv as (HS & HK & HT & Hs).
  destruct Hd as (HK' & HSK & _ & Hs').
  fold (spec_d1 (S request) (K request) (T request) (r request)
          (sigma request)).
  split; [apply stock_defined; assumption |].
  split; [apply strike_defined; lra |].
  eexists. exists engine_calls.
  split; [apply calculateOption_traced_defined; repeat split; assumption |].
  split; [apply calculateOption_defined; repeat split; assumption |].
  cbn [closed_form price delta gamma vega theta].
  repeat split.
  - rewrite gamma_defined by lra. reflexivity.
  - rewrite vega_defined by lra. reflexivity.
  - rewrite theta_defined by lra. reflexivity.
Qed.

Lemma one_d1_d2_pair_per_request_witness :
  let d1 := (ln (100 / 100) + (0.05 + 0.5 * (0.2 * 0.2)) * 1)
            / (0.2 * sqrt 1) in
  let d2 := d1 - 0.2 * sqrt 1 in
  calculate_standard_normal_variable_stock 100 100 1 0.05 0.2 = Some d1
  /\ calculate_standard_normal_variable_strike d1 1 0.05 0.2 = Some d2
  /\ exists response calls,
      calculateOption_traced (reference_request "c") = Some (response, calls)
      /\ calculateOption (reference_request "c") = Some response
      /\ count_occ engine_fn_eq_dec calls Fn_standard_normal_variable_stock
         = 1%nat
      /\ count_occ engine_fn_eq_dec calls Fn_standard_normal_variable_strike
         = 1%nat
      /\ price response
         = calculate_european_option d1 d2 100 100 1 0.05 "c"
      /\ delta response = calculate_delta d1 "c"
      /\ calculate_gamma d1 100 1 0.2 = Some (gamma response)
      /\ calculate_vega d1 100 1 = Some (vega response)
      /\ calculate_theta d1 d2 100 100 1 0.05 0.2 "c"
         = Some (theta response).
Proof.
  apply (one_d1_d2_pair_per_request (reference_request "c")).
  unfold valid_request; simpl; lra.
Defined.

(** ** Requests outside the domain *)

Lemma stock_undefined (S K T r sigma : R) :
  K = 0 \/ S / K <= 0 \/ T <= 0 \/ sigma = 0 ->
  calculate_standard_normal_variable_stock S K T r sigma = None.
Proof.
  intros H. unfold calculate_standard_normal_variable_stock.
  destruct (Req_dec_T K 0) as [-> | HK].
  { rewrite div_undefined. reflexivity. }
  rewrite div_defined by exact HK. cbn [Dbl.bind].
  destruct (Rle_dec (S / K) 0) as [HSK | HSK].
  { apply log_None in HSK. rewrite HSK. reflexivity. }
  rewrite log_defined by lra. cbn [Dbl.bind].
  destruct (Rlt_dec T 0) as [HT | HT].
  { apply sqrt_None in HT. rewrite HT. reflexivity. }
  rewrite sqrt_defined by lra. cbn [Dbl.bind].
  apply div_None.
  destruct H as [H | [H | [H | H]]]; try tauto.
  - replace T with 0 by lra. rewrite sqrt_0. ring.
  - rewrite H. ring.
Qed.








(** ** Numeric bounds *)

Ltac in_domain_by_lra :=
  apply calculateOption_defined; unfold in_domain; simpl; repeat split; lra.

Lemma PI_bounds : 3.14159 < PI < 3.1416.
Proof.
  pose proof (PI_2_3_7_ineq 2) as [Hl Hu].
  unfold sum_f_R0, tg_alt, PI_2_3_7_tg, Ratan_seq in Hl, Hu.
  simpl in Hl, Hu.
  split; lra.
Qed.

Lemma sqrt_between (x lo hi : R) :
  0 <= lo -> lo * lo <= x <= hi * hi -> 0 <= hi -> lo <= sqrt x <= hi.
Proof.
  intros Hlo [H1 H2] Hhi. split.
  - rewrite <- (sqrt_square lo) by exact Hlo. apply sqrt_le_1_alt. exact H1.
  - rewrite <- (sqrt_square hi) by exact Hhi. apply sqrt_le_1_alt. exact H2.
Qed.

Lemma sqrt_2PI_bounds : 2.5066 <= sqrt (2 * PI) <= 2.5067.
Proof. pose proof PI_bounds. apply sqrt_between; lra. Qed.

Lemma exp_neg_first_order (u : R) :
  0 <= u < 1 -> 1 - u <= exp (- u) <= / (1 + u).
Proof.
  intros [H0 H1]. split.
  - pose proof (exp_ineq1_le (- u)). lra.
  - pose proof (exp_ineq1_le u) as Hu.
    rewrite exp_Ropp. apply Rinv_le_contravar; lra.
Qed.

(** Halving the argument squares the first-order bounds. *)
Lemma exp_neg_second_order (u : R) :
  0 <= u < 1 ->
  (1 - u / 2) * (1 - u / 2) <= exp (- u) <= / (1 + u / 2) * / (1 + u / 2).
Proof.
  intros [H0 H1].
  assert (Hh : 0 <= u / 2 < 1) by lra.
  pose proof (exp_neg_first_order _ Hh) as [Hl Hu].
  replace (- u) with (- (u / 2) + - (u / 2)) by lra.
  rewrite exp_plus.
  pose proof (exp_pos (- (u / 2))).
  split; nra.
Qed.

Lemma exp_bounds_06125 : 0.9396 <= exp (-0.06125) <= 0.9415.
Proof.
  assert (H : 0 <= 0.06125 < 1) by lra.
  pose proof (exp_neg_second_order _ H) as [Hl Hu].
  replace (- (0.06125)) with (-0.06125) in * by lra.
  split; lra.
Qed.

Lemma exp_bounds_01125 : 0.9887 <= exp (-0.01125) <= 0.9889.
Proof.
  assert (H : 0 <= 0.01125 < 1) by lra.
  pose proof (exp_neg_second_order _ H) as [Hl Hu].
  replace (- (0.01125)) with (-0.01125) in * by lra.
  split; lra.
Qed.

Lemma exp_bounds_05 : 0.9506 <= exp (- (0.05) * 1) <= 0.9519.
Proof.
  assert (H : 0 <= 0.05 < 1) by lra.
  pose proof (exp_neg_second_order _ H) as [Hl Hu].
  replace (- (0.05) * 1) with (- (0.05)) by lra.
  split; lra.
Qed.

Lemma cdf_035 : 0.6101 <= cdf 0.35 <= 0.6104.
Proof.
  rewrite cdf_nonneg by lra. unfold cdf_tail, cdf_poly.
  rewrite Rabs_pos_eq by lra.
  replace (-0.5 * 0.35 * 0.35) with (-0.06125) by lra.
  pose proof exp_bounds_06125. split; lra.
Qed.

Lemma cdf_015 : 0.6248 <= cdf 0.15 <= 0.6249.
Proof.
  rewrite cdf_nonneg by lra. unfold cdf_tail, cdf_poly.
  rewrite Rabs_pos_eq by lra.
  replace (-0.5 * 0.15 * 0.15) with (-0.01125) by lra.
  pose proof exp_bounds_01125. split; lra.
Qed.

(** Far from 0 the exponential factor kills [y]: [cdf] tends to one half
    at both ends. *)
Lemma cdf_tail_decay (x : R) : cdf_tail x <= cdf_peak / (1 + 0.5 * x * x).
Proof.
  unfold cdf_tail, cdf_peak.
  pose proof (cdf_poly_range _ (cdf_t_range x)) as [Hp0 Hp1].
  assert (Hx : 0 <= 0.5 * x * x) by nra.
  pose proof (exp_ineq1_le (0.5 * x * x)) as He.
  replace (-0.5 * x * x) with (- (0.5 * x * x)) by lra.
  rewrite exp_Ropp.
  assert (Hi : / exp (0.5 * x * x) <= / (1 + 0.5 * x * x)).
  { apply Rinv_le_contravar; lra. }
  assert (Hi0 : 0 < / exp (0.5 * x * x)).
  { apply Rinv_0_lt_compat, exp_pos. }
  unfold Rdiv. nra.
Qed.

Lemma cdf_far_right (x : R) : 1000 <= x -> 0.5 < cdf x < 0.5 + 1e-6.
Proof.
  intros Hx. rewrite cdf_nonneg by lra.
  pose proof (cdf_tail_range x) as [H0 _].
  pose proof (cdf_tail_decay x) as Hd.
  pose proof cdf_peak_value as [Pl Pu].
  assert (Hq : 500001 <= 1 + 0.5 * x * x) by nra.
  assert (Hi : / (1 + 0.5 * x * x) <= / 500001).
  { apply Rinv_le_contravar; lra. }
  assert (Hi0 : 0 < / (1 + 0.5 * x * x)).
  { apply Rinv_0_lt_compat; lra. }
  unfold Rdiv in Hd. split; [lra | nra].
Qed.

Lemma cdf_far_left (x : R) : 1000 <= x -> 0.5 - 1e-6 < cdf (- x) < 0.5.
Proof.
  intros Hx. pose proof (cdf_far_right x Hx).
  assert (Hn : x <> 0) by lra.
  pose proof (cdf_reflect x Hn). lra.
Qed.

(** ** The scenarios *)

Lemma reference_d1 : spec_d1 100 100 1 0.05 0.2 = 0.35.
Proof.
  unfold spec_d1. replace (100 / 100) with 1 by lra.
  rewrite ln_1, sqrt_1. lra.
Qed.

Lemma reference_d2 : spec_d2 100 100 1 0.05 0.2 = 0.15.
Proof. unfold spec_d2. rewrite reference_d1, sqrt_1. lra. Qed.

Lemma parity_d1 : spec_d1 100 100 1 0.125 0.5 = 0.5.
Proof.
  unfold spec_d1. replace (100 / 100) with 1 by lra.
  rewrite ln_1, sqrt_1. lra.
Qed.

Lemma parity_d2 : spec_d2 100 100 1 0.125 0.5 = 0.
Proof. unfold spec_d2. rewrite parity_d1, sqrt_1. lra. Qed.

Lemma short_dated_d1 :
  spec_d1 200 100 1e-6 0.05 0.2 = (ln 2 + 0.07 * 1e-6) / 0.0002.
Proof.
  unfold spec_d1. replace (200 / 100) with 2 by lra.
  replace 1e-6 with (1e-3 * 1e-3) at 2 by lra.
  rewrite sqrt_square by lra.
  f_equal; lra.
Qed.

Lemma short_dated_d2 :
  spec_d2 200 100 1e-6 0.05 0.2 = (ln 2 + 0.07 * 1e-6) / 0.0002 - 0.0002.
Proof.
  unfold spec_d2. rewrite short_dated_d1.
  replace 1e-6 with (1e-3 * 1e-3) at 2 by lra.
  rewrite sqrt_square by lra. lra.
Qed.

(** Away from d1 = 0 and d2 = 0 the two prices of the engine satisfy
    put-call parity exactly. *)
Lemma put_call_parity_off_zero (d1 d2 S K T r : R) :
  d1 <> 0 -> d2 <> 0 ->
  calculate_european_option d1 d2 S K T r "c"
  - calculate_european_option d1 d2 S K T r "p"
  = S - K * exp (- r * T).
Proof.
  intros H1 H2. unfold calculate_european_option. cbn [Ascii.eqb Bool.eqb].
  pose proof (cdf_reflect d1 H1). pose proof (cdf_reflect d2 H2).
  nra.
Qed.

(** ** The claims about concrete scenarios *)

(** C2, at its own input S = 100, K = 100, T = 1, r = 0.05, sigma = 0.2,
    Call.  The engine returns a price between 1.5 and 1.7 (the claim: 10.45)
    and a theta between -6.74 and -6.71 (the claim: -6.41), both outside the
    tolerance 0.05; delta, gamma and vega are within 0.05 of 0.64, 0.0188
    and 37.52. *)
Theorem reference_call_values :
  exists response,
    calculateOption (reference_request "c") = Some response
    /\ 1.5 < price response < 1.7
    /\ -6.74 < theta response < -6.71
    /\ Rabs (delta response - 0.64) <= 0.05
    /\ Rabs (gamma response - 0.0188) <= 0.05
    /\ Rabs (vega response - 37.52) <= 0.05.
Proof.
  eexists. split; [in_domain_by_lra |].
  cbn [reference_request init_option_parameters S K T r sigma type].
  rewrite reference_d1, reference_d2.
  cbn [closed_form price delta gamma vega theta
       reference_request init_option_parameters S K T r sigma type].
  rewrite calculate_delta_call, option_sign_call.
  unfold calculate_european_option. cbn [Ascii.eqb Bool.eqb].
  replace (2 * PI * 1) with (2 * PI) by ring.
  rewrite sqrt_1, !Rmult_1_l.
  replace (-0.5 * 0.35 * 0.35) with (-0.06125) by lra.
  pose proof cdf_035 as [A1 A2]. pose proof cdf_015 as [B1 B2].
  pose proof exp_bounds_05 as [C1 C2].
  pose proof exp_bounds_06125 as [D1 D2].
  pose proof sqrt_2PI_bounds as [E1 E2].
  set (c35 := cdf 0.35) in *. set (c15 := cdf 0.15) in *.
  set (e05 := exp (- (0.05) * 1)) in *.
  set (e06 := exp (-0.06125)) in *.
  set (q := sqrt (2 * PI)) in *.
  assert (Hq : 0 < / q) by (apply Rinv_0_lt_compat; lra).
  assert (Hqq : q * / q = 1) by (apply Rinv_r; lra).
  assert (I1 : 0.39891 <= / q <= 0.39896) by (split; nra).
  assert (P1 : 0.5939 <= e05 * c15 <= 0.5949) by (split; nra).
  assert (P2 : 0.37481 <= e06 * / q <= 0.37563) by (split; nra).
  repeat split.
  - nra.
  - nra.
  - unfold Rdiv. nra.
  - unfold Rdiv. nra.
  - apply Rabs_le. lra.
  - apply Rabs_le. unfold Rdiv. rewrite !Rinv_mult. lra.
  - apply Rabs_le. unfold Rdiv. lra.
Qed.

(** C3, at the failing input S = K = 100, T = 1, r = 0.125, sigma = 0.5,
    where d1 = 0.5 and d2 = 0.  Call price minus put price differs from
    S - K e^(-rT) by 2 * 0.134 * K e^(-rT), more than 20; the claim allows
    1e-6. *)
Theorem parity_fails_when_d2_is_zero :
  exists call put,
    calculateOption (parity_request "c") = Some call
    /\ calculateOption (parity_request "p") = Some put
    /\ price call - price put - (100 - 100 * exp (- (0.125) * 1))
       = - (2 * cdf_peak * (100 * exp (- (0.125) * 1)))
    /\ Rabs (price call - price put - (100 - 100 * exp (- (0.125) * 1)))
       > 20.
Proof.
  do 2 eexists.
  split; [in_domain_by_lra |]. split; [in_domain_by_lra |].
  cbn [parity_request init_option_parameters S K T r sigma type].
  rewrite parity_d1, parity_d2.
  cbn [closed_form price parity_request init_option_parameters
       S K T r sigma type].
  unfold calculate_european_option. cbn [Ascii.eqb Bool.eqb].
  rewrite Ropp_0, cdf_0.
  assert (Hh : (0.5 : R) <> 0) by lra.
  pose proof (cdf_reflect 0.5 Hh) as Hr.
  set (e := exp (- (0.125) * 1)).
  assert (He : 0.875 <= e).
  { subst e. replace (- (0.125) * 1) with (- (0.125)) by lra.
    assert (H : 0 <= 0.125 < 1) by lra.
    pose proof (exp_neg_first_order _ H). lra. }
  pose proof cdf_peak_value as [Pl Pu].
  assert (E : 100 * cdf 0.5 - 100 * e * (0.5 + cdf_peak)
              - (100 * e * (0.5 + cdf_peak) - 100 * cdf (- (0.5)))
              - (100 - 100 * e) = - (2 * cdf_peak * (100 * e))) by nra.
  split; [exact E |].
  rewrite E. rewrite Rabs_Ropp, Rabs_pos_eq by nra. nra.
Qed.

(** C7, at the failing input S = 200, K = 100, T = 1e-6, r = 0.05,
    sigma = 0.2.  d1 and d2 are beyond 1000, [cdf] is one half there, and
    the engine returns a call price within 0.001 of 50 and a put price
    within 0.001 of -50; the intrinsic values are 100 and 0, and the claim
    allows 1e-2. *)
Theorem short_dated_price_is_half_intrinsic :
  exists call put,
    calculateOption (short_dated_request "c") = Some call
    /\ calculateOption (short_dated_request "p") = Some put
    /\ Rabs (price call - 50) < 0.001
    /\ Rabs (price put - -50) < 0.001
    /\ Rabs (price call - Rmax (200 - 100) 0) > 49
    /\ Rabs (price put - Rmax (100 - 200) 0) > 49.
Proof.
  do 2 eexists.
  split; [in_domain_by_lra |]. split; [in_domain_by_lra |].
  cbn [short_dated_request init_option_parameters S K T r sigma type].
  rewrite short_dated_d1, short_dated_d2.
  cbn [closed_form price short_dated_request init_option_parameters
       S K T r sigma type].
  unfold calculate_european_option. cbn [Ascii.eqb Bool.eqb].
  pose proof ln_lt_2 as Hln.
  set (d1 := (ln 2 + 0.07 * 1e-6) / 0.0002).
  assert (Hd1 : 1000 <= d1) by (subst d1; lra).
  assert (Hd2 : 1000 <= d1 - 0.0002) by (subst d1; lra).
  pose proof (cdf_far_right _ Hd1) as [A1 A2].
  pose proof (cdf_far_right _ Hd2) as [B1 B2].
  pose proof (cdf_far_left _ Hd1) as [A3 A4].
  pose proof (cdf_far_left _ Hd2) as [B3 B4].
  set (e := exp (- (0.05) * 1e-6)).
  assert (He : 1 - 1e-6 <= e <= 1).
  { subst e. split.
    - pose proof (exp_ineq1_le (- (0.05) * 1e-6)). lra.
    - apply exp_nonpos_le_1. lra. }
  set (c1 := cdf d1) in *. set (c2 := cdf (d1 - 0.0002)) in *.
  set (n1 := cdf (- d1)) in *. set (n2 := cdf (- (d1 - 0.0002))) in *.
  assert (Hc : Rabs (200 * c1 - 100 * e * c2 - 50) < 0.001).
  { apply Rabs_def1; nra. }
  assert (Hp : Rabs (100 * e * n2 - 200 * n1 - -50) < 0.001).
  { apply Rabs_def1; nra. }
  split; [exact Hc |]. split; [exact Hp |].
  apply Rabs_def2 in Hc. apply Rabs_def2 in Hp.
  rewrite Rmax_left by lra. rewrite Rmax_right by lra.
  split.
  - rewrite Rabs_left by lra. lra.
  - rewrite Rabs_left by lra. lra.
Qed.

(** ** More about [cdf] *)

Lemma cdf_t_decreasing (x y : R) :
  0 <= x < y ->
  1.0 / (1.0 + 0.3275911 * y) < 1.0 / (1.0 + 0.3275911 * x).
Proof.
  intros [H0 H1].
  assert (H : / (1.0 + 0.3275911 * y) < / (1.0 + 0.3275911 * x)).
  { apply Rinv_lt_contravar; nra. }
  unfold Rdiv. lra.
Qed.

Lemma cdf_poly_increasing (s t : R) :
  0 < s < t -> cdf_poly s < cdf_poly t.
Proof.
  intros [H0 H1]. unfold cdf_poly.
  assert (s * s < t * t) by nra.
  assert (0 < s * s) by nra.
  assert (s * s * s < t * t * t) by nra.
  nra.
Qed.

Lemma cdf_tail_decreasing (x y : R) :
  0 <= x < y -> cdf_tail y < cdf_tail x.
Proof.
  intros [H0 H1]. unfold cdf_tail.
  rewrite (Rabs_pos_eq x) by lra. rewrite (Rabs_pos_eq y) by lra.
  pose proof (cdf_t_decreasing x y (conj H0 H1)) as Ht.
  pose proof (cdf_t_range y) as [Hty _]. rewrite (Rabs_pos_eq y) in Hty by lra.
  pose proof (cdf_poly_increasing _ _ (conj Hty Ht)) as Hp.
  pose proof (cdf_poly_range _ (cdf_t_range y)) as [Hpy _].
  rewrite (Rabs_pos_eq y) in Hpy by lra.
  assert (He : exp (-0.5 * y * y) < exp (-0.5 * x * x)).
  { apply exp_increasing. nra. }
  pose proof (exp_pos (-0.5 * y * y)) as Hey.
  set (ey := exp (-0.5 * y * y)) in *. set (ex := exp (-0.5 * x * x)) in *.
  set (py := cdf_poly (1.0 / (1.0 + 0.3275911 * y))) in *.
  set (px := cdf_poly (1.0 / (1.0 + 0.3275911 * x))) in *.
  assert (H1' : ey * py < ex * py) by (apply Rmult_lt_compat_r; lra).
  assert (H2' : ex * py < ex * px) by (apply Rmult_lt_compat_l; lra).
  nra.
Qed.

(** X1.  Away from 0 [cdf] is symmetric: for x <> 0,
    cdf(x) + cdf(-x) = 1, with cdf(x) at least one half for positive x and
    cdf(-x) at most one half. *)
Theorem cdf_symmetric_off_zero (x : R) :
  x <> 0 ->
  cdf x + cdf (- x) = 1
  /\ (0 < x -> cdf (- x) <= 0.5 <= cdf x).
Proof.
  intros Hx. pose proof (cdf_reflect x Hx) as Hr.
  split; [exact Hr |].
  intros Hp. pose proof (cdf_nonneg x) as Hn.
  pose proof (cdf_tail_range x) as [H0 _]. lra.
Qed.

Lemma cdf_symmetric_off_zero_witness :
  cdf 1 + cdf (- 1) = 1 /\ (0 < 1 -> cdf (- 1) <= 0.5 <= cdf 1).
Proof. apply (cdf_symmetric_off_zero 1). lra. Defined.

(** X2.  [cdf] never increases on the non-negative reals nor on the
    negative reals: for x <= y on the same side of 0, cdf(y) <= cdf(x).
    It jumps up at 0 and falls back towards one half on both sides. *)
Theorem cdf_nonincreasing_on_each_side (x y : R) :
  x <= y -> 0 <= x \/ y < 0 -> cdf y <= cdf x.
Proof.
  intros Hxy Hside.
  destruct (Req_dec_T x y) as [-> | Hne]; [lra |].
  assert (Hlt : x < y) by lra.
  destruct Hside as [Hx | Hy].
  - rewrite !cdf_nonneg by lra.
    pose proof (cdf_tail_decreasing x y). lra.
  - rewrite !cdf_neg by lra.
    rewrite <- (cdf_tail_even x), <- (cdf_tail_even y).
    pose proof (cdf_tail_decreasing (- y) (- x)). lra.
Qed.

Lemma cdf_nonincreasing_on_each_side_witness : cdf 2 <= cdf 1.
Proof.
  apply (cdf_nonincreasing_on_each_side 1 2); [lra | left; lra].
Defined.

(** X3.  [cdf] tends to one half at both ends:
    |cdf(x) - 0.5| <= 0.13403 / (1 + x^2 / 2) for every x. *)
Theorem cdf_tends_to_half (x : R) :
  Rabs (cdf x - 0.5) <= 0.13403 / (1 + 0.5 * x * x).
Proof.
  pose proof (cdf_tail_range x) as [H0 _].
  pose proof (cdf_tail_decay x) as Hd.
  pose proof cdf_peak_value as [_ Pu].
  assert (Hq : 0 < / (1 + 0.5 * x * x)).
  { apply Rinv_0_lt_compat. nra. }
  assert (Hb : cdf_tail x <= 0.13403 / (1 + 0.5 * x * x)).
  { unfold Rdiv in *. nra. }
  apply Rabs_le.
  destruct (Rle_dec 0 x) as [Hx | Hx].
  - rewrite cdf_nonneg by exact Hx. lra.
  - rewrite cdf_neg by lra. lra.
Qed.

(** ** Call and put on the same request *)

Lemma calculateOption_with_type (request : RequestOptionParameters)
    (ty : ascii) :
  valid_request request ->
  calculateOption (with_type request ty)
  = Some (closed_form
            (spec_d1 (S request) (K request) (T request) (r request)
               (sigma request))
            (spec_d2 (S request) (K request) (T request) (r request)
               (sigma request))
            (with_type request ty)).
Proof.
  intros H.
  rewrite calculateOption_defined by (apply valid_in_domain; exact H).
  reflexivity.
Qed.

Lemma reference_request_valid (ty : ascii) :
  valid_request (reference_request ty).
Proof. unfold valid_request; simpl; lra. Qed.

Lemma reference_d1_nonzero (ty : ascii) :
  spec_d1 (S (reference_request ty)) (K (reference_request ty))
    (T (reference_request ty)) (r (reference_request ty))
    (sigma (reference_request ty)) <> 0.
Proof. simpl. rewrite reference_d1. lra. Qed.

Lemma reference_d2_nonzero (ty : ascii) :
  spec_d2 (S (reference_request ty)) (K (reference_request ty))
    (T (reference_request ty)) (r (reference_request ty))
    (sigma (reference_request ty)) <> 0.
Proof. simpl. rewrite reference_d2. lra. Qed.

(** X4.  Put-call parity away from zero: on a valid request whose d1 and d2
    are both non-zero, the call price minus the put price is exactly
    S - K e^(-rT). *)
Theorem put_call_parity_when_d1_d2_nonzero
    (request : RequestOptionParameters) :
  valid_request request ->
  spec_d1 (S request) (K request) (T request) (r request) (sigma request)
  <> 0 ->
  spec_d2 (S request) (K request) (T request) (r request) (sigma request)
  <> 0 ->
  exists call put,
    calculateOption (with_type request "c") = Some call
    /\ calculateOption (with_type request "p") = Some put
    /\ price call - price put
       = S request - K request * exp (- r request * T request).
Proof.
  intros Hv H1 H2. do 2 eexists.
  split; [apply calculateOption_with_type, Hv |].
  split; [apply calculateOption_with_type, Hv |].
  cbn [closed_form price with_type init_option_parameters S K T r sigma type].
  apply put_call_parity_off_zero; assumption.
Qed.

Lemma put_call_parity_when_d1_d2_nonzero_witness :
  exists call put,
    calculateOption (with_type (reference_request "c") "c") = Some call
    /\ calculateOption (with_type (reference_request "c") "p") = Some put
    /\ price call - price put
       = S (reference_request "c")
         - K (reference_request "c")
           * exp (- r (reference_request "c") * T (reference_request "c")).
Proof.
  apply (put_call_parity_when_d1_d2_nonzero (reference_request "c")).
  - apply reference_request_valid.
  - apply reference_d1_nonzero.
  - apply reference_d2_nonzero.
Defined.

(** X5.  On a valid request with d1 <> 0 the call delta exceeds the put
    delta by exactly 1. *)
Theorem call_delta_minus_put_delta (request : RequestOptionParameters) :
  valid_request request ->
  spec_d1 (S request) (K request) (T request) (r request) (sigma request)
  <> 0 ->
  exists call put,
    calculateOption (with_type request "c") = Some call
    /\ calculateOption (with_type request "p") = Some put
    /\ delta call - delta put = 1.
Proof.
  intros Hv H1. do 2 eexists.
  split; [apply calculateOption_with_type, Hv |].
  split; [apply calculateOption_with_type, Hv |].
  cbn [closed_form delta with_type init_option_parameters S K T r sigma type].
  rewrite calculate_delta_call, calculate_delta_other by discriminate.
  pose proof (cdf_reflect _ H1). lra.
Qed.

Lemma call_delta_minus_put_delta_witness :
  exists call put,
    calculateOption (with_type (reference_request "c") "c") = Some call
    /\ calculateOption (with_type (reference_request "c") "p") = Some put
    /\ delta call - delta put = 1.
Proof.
  apply (call_delta_minus_put_delta (reference_request "c")).
  - apply reference_request_valid.
  - apply reference_d1_nonzero.
Defined.

(** X6.  On a valid request with d2 <> 0 the call theta minus the put theta
    is exactly -r K e^(-rT). *)
Theorem call_theta_minus_put_theta (request : RequestOptionParameters) :
  valid_request request ->
  spec_d2 (S request) (K request) (T request) (r request) (sigma request)
  <> 0 ->
  exists call put,
    calculateOption (with_type request "c") = Some call
    /\ calculateOption (with_type request "p") = Some put
    /\ theta call - theta put
       = - (r request * K request * exp (- r request * T request)).
Proof.
  intros Hv H2. do 2 eexists.
  split; [apply calculateOption_with_type, Hv |].
  split; [apply calculateOption_with_type, Hv |].
  cbn [closed_form theta with_type init_option_parameters S K T r sigma type].
  rewrite option_sign_call, option_sign_other by discriminate.
  set (d2 := spec_d2 _ _ _ _ _) in *.
  replace (1 * d2) with d2 by ring. replace (-1 * d2) with (- d2) by ring.
  pose proof (cdf_reflect _ H2) as Hr.
  set (e := exp _). set (g := _ / _).
  replace (cdf (- d2)) with (1 - cdf d2) by lra. ring.
Qed.

Lemma call_theta_minus_put_theta_witness :
  exists call put,
    calculateOption (with_type (reference_request "c") "c") = Some call
    /\ calculateOption (with_type (reference_request "c") "p") = Some put
    /\ theta call - theta put
       = - (r (reference_request "c") * K (reference_request "c")
            * exp (- r (reference_request "c")
                   * T (reference_request "c"))).
Proof.
  apply (call_theta_minus_put_theta (reference_request "c")).
  - apply reference_request_valid.
  - apply reference_d2_nonzero.
Defined.

(** ** Gamma, vega and theta on valid requests *)

(** X7.  On a valid request gamma and vega are not negative, and
    vega = gamma * S^2 * sigma * T. *)
Theorem gamma_vega_nonnegative (request : RequestOptionParameters) :
  valid_request request ->
  exists response,
    calculateOption request = Some response
    /\ 0 <= gamma response /\ 0 <= vega response
    /\ vega response
       = gamma response * (S request * S request) * sigma request * T request.
Proof.
  intros Hv. eexists.
  split; [apply calculateOption_defined, valid_in_domain, Hv |].
  destruct Hv as (HS & HK & HT & Hs).
  cbn [closed_form gamma vega].
  set (e := exp _).
  assert (He : 0 < e) by apply exp_pos.
  pose proof PI_RGT_0 as Hpi.
  assert (Hq : 0 < sqrt (2 * PI)) by apply sqrt_2PI_pos.
  assert (Ht : 0 < sqrt (T request)) by (apply sqrt_lt_R0; exact HT).
  assert (Htt : sqrt (T request) * sqrt (T request) = T request).
  { apply sqrt_sqrt. lra. }
  rewrite sqrt_mult by lra.
  set (st := sqrt (T request)) in *. set (q := sqrt (2 * PI)) in *.
  split; [| split].
  - left. apply Rdiv_lt_0_compat; [exact He |].
    repeat apply Rmult_lt_0_compat; assumption.
  - left. apply Rdiv_lt_0_compat; [| exact Hq].
    repeat apply Rmult_lt_0_compat; assumption.
  - rewrite <- Htt. field. repeat split; lra.
Qed.

Lemma gamma_vega_nonnegative_witness :
  exists response,
    calculateOption (reference_request "c") = Some response
    /\ 0 <= gamma response /\ 0 <= vega response
    /\ vega response
       = gamma response
         * (S (reference_request "c") * S (reference_request "c"))
         * sigma (reference_request "c") * T (reference_request "c").
Proof.
  apply (gamma_vega_nonnegative (reference_request "c")).
  apply reference_request_valid.
Defined.

Lemma spec_d1_scale (c S K T r sigma : R) :
  c <> 0 -> K <> 0 ->
  spec_d1 (c * S) (c * K) T r sigma = spec_d1 S K T r sigma.
Proof.
  intros Hc HK. unfold spec_d1.
  replace (c * S / (c * K)) with (S / K) by (field; split; assumption).
  reflexivity.
Qed.

(** X8.  Multiplying spot and strike of a valid request by c > 0 leaves d1,
    d2 and delta unchanged, multiplies price, vega and theta by c and
    divides gamma by c. *)
Theorem prices_scale_with_spot_and_strike
    (request : RequestOptionParameters) (c : R) :
  valid_request request -> 0 < c ->
  exists response scaled,
    calculateOption request = Some response
    /\ calculateOption (scale_request c request) = Some scaled
    /\ price scaled = c * price response
    /\ delta scaled = delta response
    /\ gamma scaled = gamma response / c
    /\ vega scaled = c * vega response
    /\ theta scaled = c * theta response.
Proof.
  intros Hv Hc. do 2 eexists.
  split; [apply calculateOption_defined, valid_in_domain, Hv |].
  destruct Hv as (HS & HK & HT & Hs).
  split.
  { apply calculateOption_defined, valid_in_domain.
    unfold valid_request, scale_request. simpl.
    repeat split; try assumption; apply Rmult_lt_0_compat; assumption. }
  unfold spec_d2.
  cbn [scale_request init_option_parameters S K T r sigma type].
  rewrite spec_d1_scale by lra.
  set (d1 := spec_d1 _ _ _ _ _).
  cbn [closed_form price delta gamma vega theta scale_request
       init_option_parameters S K T r sigma type].
  pose proof (sqrt_2PI_T_pos _ HT) as Hq.
  pose proof sqrt_2PI_pos as Hq2.
  repeat split.
  - unfold calculate_european_option.
    destruct (Ascii.eqb (type request) "c"); ring.
  - field. repeat split; lra.
  - field. lra.
  - field. lra.
Qed.

Lemma prices_scale_with_spot_and_strike_witness :
  exists response scaled,
    calculateOption (reference_request "c") = Some response
    /\ calculateOption (scale_request 2 (reference_request "c")) = Some scaled
    /\ price scaled = 2 * price response
    /\ delta scaled = delta response
    /\ gamma scaled = gamma response / 2
    /\ vega scaled = 2 * vega response
    /\ theta scaled = 2 * theta response.
Proof.
  apply (prices_scale_with_spot_and_strike (reference_request "c") 2).
  - apply reference_request_valid.
  - lra.
Defined.

(** X9.  On a valid call request with r >= 0 theta is not positive. *)
Theorem call_theta_nonpositive (request : RequestOptionParameters) :
  valid_request request -> 0 <= r request -> type request = "c"%char ->
  exists response,
    calculateOption request = Some response /\ theta response <= 0.
Proof.
  intros Hv Hr Hty. eexists.
  split; [apply calculateOption_defined, valid_in_domain, Hv |].
  destruct Hv as (HS & HK & HT & Hs).
  cbn [closed_form theta]. rewrite Hty, option_sign_call.
  set (d1 := spec_d1 _ _ _ _ _). set (d2 := spec_d2 _ _ _ _ _).
  pose proof (sqrt_2PI_T_pos _ HT) as Hq.
  pose proof (exp_pos (-0.5 * d1 * d1)) as He1.
  pose proof (exp_pos (- r request * T request)) as He2.
  pose proof (cdf_range (1 * d2)) as [Hc _].
  pose proof cdf_peak_value as [_ Pu].
  assert (A : 0 < sigma request * S request * exp (-0.5 * d1 * d1)
                  / sqrt (2 * PI * T request)).
  { apply Rdiv_lt_0_compat; [| exact Hq].
    repeat apply Rmult_lt_0_compat; assumption. }
  assert (B : 0 <= r request * K request * exp (- r request * T request)
                   * cdf (1 * d2)).
  { repeat apply Rmult_le_pos; lra. }
  unfold Rdiv in *. nra.
Qed.

Lemma call_theta_nonpositive_witness :
  exists response,
    calculateOption (reference_request "c") = Some response
    /\ theta response <= 0.
Proof.
  apply (call_theta_nonpositive (reference_request "c")).
  - apply reference_request_valid.
  - simpl. lra.
  - reflexivity.
Defined.

(** ** Where each function is undefined *)

(** X10.  [calculate_standard_normal_variable_stock] is undefined exactly
    when K = 0, S/K <= 0, T <= 0 or sigma = 0. *)
Theorem stock_undefined_iff (S K T r sigma : R) :
  calculate_standard_normal_variable_stock S K T r sigma = None
  <-> K = 0 \/ S / K <= 0 \/ T <= 0 \/ sigma = 0.
Proof.
  split; [| apply stock_undefined].
  intros H.
  destruct (Req_dec_T K 0) as [HK | HK]; [tauto |].
  destruct (Rle_dec (S / K) 0) as [HSK | HSK]; [tauto |].
  destruct (Rle_dec T 0) as [HT | HT]; [tauto |].
  destruct (Req_dec_T sigma 0) as [Hs | Hs]; [tauto |].
  rewrite stock_defined in H by (assumption || lra). discriminate H.
Qed.

(** X11.  [calculate_gamma] is undefined exactly when T <= 0, S = 0 or
    sigma = 0, whatever d1 is. *)
Theorem gamma_undefined_iff (d1 S T sigma : R) :
  calculate_gamma d1 S T sigma = None <-> T <= 0 \/ S = 0 \/ sigma = 0.
Proof.
  unfold calculate_gamma. pose proof PI_RGT_0 as Hpi.
  destruct (Rlt_dec T 0) as [HT | HT].
  { assert (Hn : 2 * PI * T < 0) by nra.
    apply sqrt_None in Hn. rewrite Hn. cbn [Dbl.bind].
    split; [intros _; lra | reflexivity]. }
  rewrite sqrt_defined by nra. cbn [Dbl.bind]. rewrite div_None.
  split.
  - intros H. apply Rmult_integral in H. destruct H as [H | H].
    + apply Rmult_integral in H. tauto.
    + left. apply sqrt_eq_0 in H; nra.
  - intros [H | [H | H]].
    + replace T with 0 by lra. rewrite Rmult_0_r, sqrt_0. ring.
    + rewrite H. ring.
    + rewrite H. ring.
Qed.

(** X12.  [calculate_vega] is undefined exactly when T < 0; at T = 0,
    where gamma and theta are undefined, it returns 0. *)
Theorem vega_undefined_iff (d1 S T : R) :
  (calculate_vega d1 S T = None <-> T < 0)
  /\ calculate_vega d1 S 0 = Some 0.
Proof.
  split.
  - destruct (Rlt_dec T 0) as [HT | HT].
    + unfold calculate_vega. pose proof HT as Hn.
      apply sqrt_None in Hn. rewrite Hn. cbn [Dbl.bind]. tauto.
    + rewrite vega_defined by lra. split; [discriminate | lra].
  - rewrite vega_defined by lra. rewrite sqrt_0. f_equal. unfold Rdiv. ring.
Qed.

(** X13.  [calculate_theta] is undefined exactly when T <= 0, whatever the
    other arguments are. *)
Theorem theta_undefined_iff (d1 d2 S K T r sigma : R) (ty : ascii) :
  calculate_theta d1 d2 S K T r sigma ty = None <-> T <= 0.
Proof.
  destruct (Rle_dec T 0) as [HT | HT].
  - split; [intros _; exact HT | intros _].
    unfold calculate_theta. pose proof PI_RGT_0 as Hpi.
    destruct (Rlt_dec T 0) as [Hn | Hn].
    + assert (Hs : 2 * PI * T < 0) by nra.
      apply sqrt_None in Hs. rewrite Hs. reflexivity.
    + replace T with 0 by lra. rewrite Rmult_0_r.
      rewrite sqrt_defined by lra. cbn [Dbl.bind].
      rewrite sqrt_0, div_undefined. reflexivity.
  - rewrite theta_defined by lra. split; [discriminate | lra].
Qed.

(** ** The input functions *)

Lemma skip_space_app (ws input : list ascii) :
  forallb isspace ws = true -> skip_space (ws ++ input) = skip_space input.
Proof.
  induction ws as [| ch ws IH]; intros H; [reflexivity |].
  simpl in H. apply andb_prop in H. destruct H as [Hc Hw].
  simpl. rewrite Hc. apply IH, Hw.
Qed.

Lemma skip_space_length (input : list ascii) :
  (length (skip_space input) <= length input)%nat.
Proof.
  induction input as [| ch rest IH]; simpl; [lia |].
  destruct (isspace ch); simpl; lia.
Qed.

Lemma skip_space_nil (input : list ascii) :
  skip_space input = [] <-> forallb isspace input = true.
Proof.
  induction input as [| ch rest IH]; simpl; [tauto |].
  destruct (isspace ch); simpl; [exact IH |].
  split; discriminate.
Qed.

Lemma skip_space_head (input : list ascii) (ch : ascii) (rest : list ascii) :
  skip_space input = ch :: rest -> isspace ch = false.
Proof.
  induction input as [| x l IH]; simpl; [discriminate |].
  destruct (isspace x) eqn:E; [exact IH |].
  intros H. injection H as -> _. exact E.
Qed.

Lemma call_or_put_not_space (ch : ascii) :
  is_call_or_put ch = true -> isspace ch = false.
Proof.
  unfold is_call_or_put. intros H. apply orb_prop in H.
  destruct H as [H | H]; apply Ascii.eqb_eq in H; subst ch; reflexivity.
Qed.

Lemma is_call_or_put_spec (ch : ascii) :
  is_call_or_put ch = true <-> ch = "c"%char \/ ch = "p"%char.
Proof.
  unfold is_call_or_put. rewrite orb_true_iff, !Ascii.eqb_eq. tauto.
Qed.

Lemma get_char_input_loop_returns (fuel : nat) (message : string)
    (value : option ascii) (con con' : console) (ch : ascii) :
  get_char_input_loop fuel message value con = Returns ch con' ->
  is_call_or_put ch = true.
Proof.
  revert value con. induction fuel as [| fuel IH]; intros value con;
    [discriminate |].
  cbn [get_char_input_loop]. unfold io_bind, printf, scanf_char, io_ret.
  cbn [stdin stdout].
  destruct (skip_space (stdin con)) as [| x rest].
  - destruct value as [v |]; [| discriminate].
    destruct (is_call_or_put v) eqn:E; [| discriminate].
    intros H. injection H as -> _. exact E.
  - destruct (is_call_or_put x) eqn:E.
    + intros H. injection H as -> _. exact E.
    + apply IH.
Qed.

Lemma get_char_input_loop_fuel (fuel : nat) (message : string)
    (value : option ascii) (con : console) :
  (length (stdin con) < fuel)%nat ->
  get_char_input_loop fuel message value con <> Out_of_fuel.
Proof.
  revert value con. induction fuel as [| fuel IH]; intros value con Hf;
    [lia |].
  cbn [get_char_input_loop]. unfold io_bind, printf, scanf_char, io_ret.
  cbn [stdin stdout].
  pose proof (skip_space_length (stdin con)) as Hl.
  destruct (skip_space (stdin con)) as [| x rest].
  - destruct value as [v |]; [| discriminate].
    destruct (is_call_or_put v); discriminate.
  - destruct (is_call_or_put x); [discriminate |].
    apply IH. cbn [stdin]. simpl in Hl. lia.
Qed.

Lemma get_char_input_outcome (message : string) (value : option ascii)
    (con : console) :
  match get_char_input message value con with
  | Returns ch _ => ch = "c"%char \/ ch = "p"%char
  | Out_of_fuel => False
  | Diverges | Undefined _ => True
  end.
Proof.
  destruct (get_char_input message value con) as [ch con' | | u |] eqn:E;
    try exact I.
  - apply is_call_or_put_spec.
    exact (get_char_input_loop_returns _ _ _ _ _ _ E).
  - revert E. apply get_char_input_loop_fuel. lia.
Qed.

(** X14.  [get_char_input] hands back only 'c' or 'p': whatever the input
    and the old content of [*value], a call that returns stored one of the
    two characters. *)
Theorem get_char_input_call_or_put (message : string) (value : option ascii)
    (con : console) :
  match get_char_input message value con with
  | Returns ch _ => ch = "c"%char \/ ch = "p"%char
  | Out_of_fuel => False
  | Diverges | Undefined _ => True
  end.
Proof.
  destruct (get_char_input message value con) as [ch con' | | u |] eqn:E;
    try exact I.
  - apply is_call_or_put_spec.
    exact (get_char_input_loop_returns _ message value con con' ch E).
  - exact (get_char_input_loop_fuel _ message value con
             (Nat.lt_succ_diag_r _) E).
Qed.

Lemma get_char_input_loop_skip (fuel : nat) (message : string)
    (value : option ascii) (input1 input2 : list ascii) (out : list string) :
  skip_space input1 = skip_space input2 ->
  get_char_input_loop fuel message value {| stdin := input1; stdout := out |}
  = get_char_input_loop fuel message value
      {| stdin := input2; stdout := out |}.
Proof.
  intros H. destruct fuel as [| fuel]; [reflexivity |].
  cbn [get_char_input_loop]. unfold io_bind, printf, scanf_char.
  cbn [stdin stdout]. rewrite H. reflexivity.
Qed.

Lemma get_char_input_loop_first (fuel : nat) (message : string)
    (value : option ascii) (rejected : list ascii) (ch : ascii)
    (rest : list ascii) (out : list string) :
  (length (rejected ++ ch :: rest) < fuel)%nat ->
  forallb (fun x => negb (is_call_or_put x)) rejected = true ->
  is_call_or_put ch = true ->
  get_char_input_loop fuel message value
    {| stdin := rejected ++ ch :: rest; stdout := out |}
  = Returns ch {| stdin := rest;
                  stdout := out ++ message :: complaints message rejected |}.
Proof.
  revert fuel value out.
  induction rejected as [| x rejected IH]; intros fuel value out Hf Hr Hc.
  - destruct fuel as [| fuel]; [simpl in Hf; lia |].
    cbn [get_char_input_loop app]. unfold io_bind, printf, scanf_char, io_ret.
    cbn [stdin stdout skip_space].
    rewrite (call_or_put_not_space ch Hc), Hc. reflexivity.
  - cbn [forallb] in Hr. apply andb_prop in Hr. destruct Hr as [Hx Hr].
    apply negb_true_iff in Hx.
    destruct (isspace x) eqn:Es.
    + rewrite (get_char_input_loop_skip _ _ _ ((x :: rejected) ++ ch :: rest)
                 (rejected ++ ch :: rest)).
      2: { cbn [app skip_space]. rewrite Es. reflexivity. }
      rewrite IH; try assumption.
      2: { simpl in Hf. lia. }
      unfold complaints, not_space. cbn [filter]. rewrite Es. reflexivity.
    + destruct fuel as [| fuel]; [simpl in Hf; lia |].
      cbn [get_char_input_loop app]. unfold io_bind, printf, scanf_char, io_ret.
      cbn [stdin stdout skip_space]. rewrite Es, Hx.
      rewrite IH; try assumption.
      2: { simpl in Hf. lia. }
      unfold complaints, not_space. cbn [filter]. rewrite Es.
      cbn [negb flat_map app stdin stdout]. rewrite <- !app_assoc.
      cbn [app]. reflexivity.
Qed.

(** X15.  [get_char_input] returns the first 'c' or 'p' of the input,
    wherever it stands: the input after that character is left unread, and
    every character before it that is not white space costs one complaint
    and one new prompt. *)
Theorem get_char_input_first_call_or_put (message : string)
    (value : option ascii) (rejected : list ascii) (ch : ascii)
    (rest : list ascii) (out : list string) :
  forallb (fun x => negb (is_call_or_put x)) rejected = true ->
  is_call_or_put ch = true ->
  get_char_input message value
    {| stdin := rejected ++ ch :: rest; stdout := out |}
  = Returns ch {| stdin := rest;
                  stdout := out ++ message :: complaints message rejected |}.
Proof.
  intros Hr Hc. unfold get_char_input. cbn [stdin].
  apply get_char_input_loop_first; [lia | exact Hr | exact Hc].
Qed.

Lemma get_char_input_first_call_or_put_witness :
  get_char_input "type: " None
    {| stdin := list_ascii_of_string "x put"; stdout := [] |}
  = Returns "p"%char
      {| stdin := list_ascii_of_string "ut";
         stdout := [] ++ "type: "%string
                   :: complaints "type: " (list_ascii_of_string "x ") |}.
Proof.
  apply (get_char_input_first_call_or_put "type: " None
           (list_ascii_of_string "x ") "p"%char (list_ascii_of_string "ut") []);
    reflexivity.
Defined.

Lemma skip_space_forallb (P : ascii -> bool) (input : list ascii) :
  forallb P input = true -> forallb P (skip_space input) = true.
Proof.
  induction input as [| ch rest IH]; intros H; [reflexivity |].
  cbn [skip_space]. destruct (isspace ch); [| exact H].
  cbn [forallb] in H. apply andb_prop in H. apply IH, H.
Qed.

Lemma get_char_input_loop_blank (fuel : nat) (message : string)
    (value : option ascii) (con : console) :
  forallb isspace (stdin con) = true ->
  get_char_input_loop (Datatypes.S fuel) message value con
  = match value with
    | None => Undefined Uninitialised_read
    | Some v =>
        if is_call_or_put v then
          Returns v {| stdin := []; stdout := stdout con ++ [message] |}
        else Diverges
    end.
Proof.
  intros H. apply skip_space_nil in H.
  cbn [get_char_input_loop]. unfold io_bind, printf, scanf_char, io_ret.
  cbn [stdin stdout]. rewrite H.
  destruct value as [v |]; [| reflexivity].
  destruct (is_call_or_put v); reflexivity.
Qed.

Lemma get_char_input_loop_diverges (fuel : nat) (message : string)
    (value : option ascii) (con : console) :
  (length (stdin con) < fuel)%nat ->
  forallb (fun x => negb (is_call_or_put x)) (stdin con) = true ->
  match value with
  | Some v => is_call_or_put v = false
  | None => forallb isspace (stdin con) = false
  end ->
  get_char_input_loop fuel message value con = Diverges.
Proof.
  revert value con. induction fuel as [| fuel IH]; intros value con Hf Hn Hv;
    [lia |].
  cbn [get_char_input_loop]. unfold io_bind, printf, scanf_char, io_ret.
  cbn [stdin stdout].
  pose proof (skip_space_length (stdin con)) as Hl.
  pose proof (skip_space_forallb _ _ Hn) as Hs.
  destruct (skip_space (stdin con)) as [| x rest] eqn:E.
  - destruct value as [v |].
    + rewrite Hv. reflexivity.
    + apply skip_space_nil in E. rewrite E in Hv. discriminate Hv.
  - cbn [forallb] in Hs. apply andb_prop in Hs. destruct Hs as [Hx Hr].
    apply negb_true_iff in Hx. rewrite Hx.
    apply IH; cbn [stdin]; [simpl in Hl; lia | exact Hr | exact Hx].
Qed.

Lemma get_char_input_loop_nonblank (fuel : nat) (message : string)
    (value : option ascii) (con : console) :
  (length (stdin con) < fuel)%nat ->
  forallb (fun x => negb (is_call_or_put x)) (stdin con) = true ->
  forallb isspace (stdin con) = false ->
  get_char_input_loop fuel message value con = Diverges.
Proof.
  intros Hf Hn Hb. destruct fuel as [| fuel]; [lia |].
  cbn [get_char_input_loop]. unfold io_bind, printf, scanf_char, io_ret.
  cbn [stdin stdout].
  pose proof (skip_space_length (stdin con)) as Hl.
  pose proof (skip_space_forallb _ _ Hn) as Hs.
  destruct (skip_space (stdin con)) as [| x rest] eqn:E.
  - apply skip_space_nil in E. rewrite E in Hb. discriminate Hb.
  - cbn [forallb] in Hs. apply andb_prop in Hs. destruct Hs as [Hx Hr].
    apply negb_true_iff in Hx. rewrite Hx.
    apply get_char_input_loop_diverges; cbn [stdin];
      [simpl in Hl; lia | exact Hr | exact Hx].
Qed.

(** X16.  When the input holds no 'c' and no 'p', [get_char_input] does
    not return if the input holds a character that is not white space,
    whatever [*value] held.  On empty or blank input [scanf] stores
    nothing and the old [*value] decides: it is returned when it is 'c' or
    'p', the loop runs for ever when it is another character, and a
    variable never written is read. *)
Theorem get_char_input_without_call_or_put (message : string)
    (value : option ascii) (con : console) :
  forallb (fun x => negb (is_call_or_put x)) (stdin con) = true ->
  get_char_input message value con
  = if forallb isspace (stdin con) then
      match value with
      | None => Undefined Uninitialised_read
      | Some v =>
          if is_call_or_put v then
            Returns v {| stdin := []; stdout := stdout con ++ [message] |}
          else Diverges
      end
    else Diverges.
Proof.
  intros Hn. unfold get_char_input.
  destruct (forallb isspace (stdin con)) eqn:E.
  - apply get_char_input_loop_blank. exact E.
  - apply get_char_input_loop_nonblank; [lia | exact Hn | exact E].
Qed.

Lemma get_char_input_without_call_or_put_witness :
  get_char_input "type: " (Some "c"%char)
    {| stdin := list_ascii_of_string "x y"; stdout := [] |}
  = Diverges.
Proof.
  apply (get_char_input_without_call_or_put "type: " (Some "c"%char)
           {| stdin := list_ascii_of_string "x y"; stdout := [] |}).
  reflexivity.
Defined.


Lemma read_token_length (input : list ascii) :
  (length (snd (read_token input)) <= length input)%nat.
Proof.
  induction input as [| ch rest IH]; simpl; [lia |].
  destruct (isspace ch); simpl; [lia |].
  destruct (read_token rest) as [token rest']. simpl in *. lia.
Qed.

Lemma read_token_app (token rest : list ascii) :
  forallb not_space token = true ->
  match rest with [] => True | ch :: _ => isspace ch = true end ->
  read_token (token ++ rest) = (token, rest).
Proof.
  intros Ht Hr. induction token as [| ch token IH].
  - destruct rest as [| x rest]; [reflexivity |].
    cbn [app read_token]. rewrite Hr. reflexivity.
  - cbn [forallb] in Ht. apply andb_prop in Ht. destruct Ht as [Hc Ht].
    unfold not_space in Hc. apply negb_true_iff in Hc.
    cbn [app read_token]. rewrite Hc, (IH Ht). reflexivity.
Qed.

Lemma c_string_no_NUL (bytes : list ascii) :
  forallb (fun ch => negb (Ascii.eqb ch NUL)) (c_string bytes) = true.
Proof.
  induction bytes as [| ch rest IH]; [reflexivity |].
  cbn [c_string]. destruct (Ascii.eqb ch NUL) eqn:E; [reflexivity |].
  cbn [forallb]. rewrite E, IH. reflexivity.
Qed.

Lemma terminator_position (text : list ascii) (n : nat) (ch : ascii) :
  forallb (fun ch => negb (Ascii.eqb ch NUL)) text = true ->
  nth_error (text ++ [NUL]) n = Some ch -> Ascii.eqb ch NUL = true ->
  n = length text.
Proof.
  revert n. induction text as [| x text IH]; intros n Hf Hn Hc.
  - destruct n as [| n]; [reflexivity |].
    destruct n; discriminate Hn.
  - cbn [forallb] in Hf. apply andb_prop in Hf. destruct Hf as [Hx Hf].
    destruct n as [| n].
    + simpl in Hn. injection Hn as <-. rewrite Hc in Hx. discriminate Hx.
    + simpl. f_equal. apply IH; assumption.
Qed.

Section StrtodFacts.

Context {double : Type} (strtod : list ascii -> double * nat).

Lemma validate_input_accepts (text : list ascii) (v : double) :
  forallb (fun ch => negb (Ascii.eqb ch NUL)) text = true ->
  validate_input strtod text = (v, true) ->
  text <> [] /\ strtod text = (v, length text).
Proof.
  intros Hf. unfold validate_input.
  destruct (strtod text) as [value consumed].
  intros H. injection H as -> H.
  apply andb_prop in H. destruct H as [Hz Ht].
  apply negb_true_iff, Nat.eqb_neq in Hz.
  destruct (nth_error (text ++ [NUL]) consumed) as [ch |] eqn:En;
    [| discriminate Ht].
  pose proof (terminator_position _ _ _ Hf En Ht) as Hc. subst consumed.
  split; [| reflexivity].
  intros ->. apply Hz. reflexivity.
Qed.

(** X17.  [validate_input] accepts a string exactly when it is not empty
    and [strtod] converted all of it; the value it stores is that of
    [strtod]. *)
Theorem validate_input_accepts_whole_text (text : list ascii) (v : double) :
  forallb (fun ch => negb (Ascii.eqb ch NUL)) text = true ->
  validate_input strtod text = (v, true)
  <-> text <> [] /\ strtod text = (v, length text).
Proof.
  intros Hf. split; [apply validate_input_accepts, Hf |].
  intros [Hne Hs]. unfold validate_input. rewrite Hs.
  rewrite nth_error_app2 by lia. rewrite Nat.sub_diag. cbn [nth_error].
  destruct text as [| ch text]; [contradiction |]. reflexivity.
Qed.

Lemma get_double_input_loop_fuel (fuel : nat) (message : string)
    (input : option (list ascii)) (con : console) :
  (length (stdin con) < fuel)%nat ->
  get_double_input_loop strtod fuel message input con <> Out_of_fuel.
Proof.
  revert input con. induction fuel as [| fuel IH]; intros input con Hf;
    [lia |].
  cbn [get_double_input_loop]. unfold io_bind, printf, scanf_string, io_ret.
  cbn [stdin stdout].
  pose proof (skip_space_length (stdin con)) as Hl.
  destruct (skip_space (stdin con)) as [| x rest] eqn:E.
  - destruct input as [text |]; [| discriminate].
    destruct (validate_input strtod text) as [v [|]]; discriminate.
  - pose proof (skip_space_head _ _ _ E) as Hx.
    pose proof (read_token_length rest) as Hr.
    cbn [read_token]. rewrite Hx.
    destruct (read_token rest) as [token rest'].
    destruct (100 <=? length (x :: token))%nat; [discriminate |].
    destruct (validate_input strtod (c_string (x :: token))) as [v [|]];
      [discriminate |].
    apply IH. cbn [stdin snd] in *. simpl in Hl. lia.
Qed.

Lemma get_double_input_loop_returns (fuel : nat) (message : string)
    (input : option (list ascii)) (con con' : console) (v : double) :
  match input with
  | None => True
  | Some text => exists token, text = c_string token /\ (length token < 100)%nat
  end ->
  get_double_input_loop strtod fuel message input con = Returns v con' ->
  exists token,
    (length token < 100)%nat
    /\ validate_input strtod (c_string token) = (v, true).
Proof.
  revert input con. induction fuel as [| fuel IH]; intros input con Hi;
    [discriminate |].
  cbn [get_double_input_loop]. unfold io_bind, printf, scanf_string, io_ret.
  cbn [stdin stdout].
  destruct (skip_space (stdin con)) as [| x rest] eqn:E.
  - destruct input as [text |]; [| discriminate].
    destruct Hi as (token & -> & Hlen).
    destruct (validate_input strtod (c_string token)) as [v' [|]] eqn:Ev;
      [| discriminate].
    intros H. injection H as -> _. exists token. split; assumption.
  - destruct (read_token (x :: rest)) as [token rest'].
    destruct (100 <=? length token)%nat eqn:El; [discriminate |].
    apply Nat.leb_gt in El.
    destruct (validate_input strtod (c_string token)) as [v' [|]] eqn:Ev.
    + intros H. injection H as -> _. exists token. split; assumption.
    + apply IH. exists token. split; [reflexivity | exact El].
Qed.

(** X19.  No length is given to [scanf("%s")]: when the first word of the
    input has 100 characters or more, [get_double_input] writes past the end
    of its 100-byte array. *)
Theorem get_double_input_overflow (message : string)
    (blank token rest : list ascii) (out : list string) :
  forallb isspace blank = true ->
  forallb not_space token = true ->
  match rest with [] => True | ch :: _ => isspace ch = true end ->
  (100 <= length token)%nat ->
  get_double_input strtod message
    {| stdin := blank ++ token ++ rest; stdout := out |}
  = Undefined Buffer_overflow.
Proof.
  intros Hb Ht Hr Hl. unfold get_double_input.
  cbn [get_double_input_loop]. unfold io_bind, printf, scanf_string.
  cbn [stdin stdout].
  rewrite (skip_space_app _ _ Hb).
  destruct token as [| x token]; [simpl in Hl; lia |].
  pose proof Ht as Ht'. cbn [forallb] in Ht'. apply andb_prop in Ht'.
  destruct Ht' as [Hx _]. unfold not_space in Hx. apply negb_true_iff in Hx.
  change ((x :: token) ++ rest) with (x :: token ++ rest) at 1.
  cbn [skip_space]. rewrite Hx.
  change (x :: token ++ rest) with ((x :: token) ++ rest).
  rewrite (read_token_app _ _ Ht Hr).
  apply Nat.leb_le in Hl. rewrite Hl. reflexivity.
Qed.

(** X20.  On empty or blank input [scanf] stores nothing and
    [get_double_input] passes its array, never written, to [strtod]. *)
Theorem get_double_input_blank (message : string) (con : console) :
  forallb isspace (stdin con) = true ->
  get_double_input strtod message con = Undefined Uninitialised_read.
Proof.
  intros H. apply skip_space_nil in H. unfold get_double_input.
  cbn [get_double_input_loop]. unfold io_bind, printf, scanf_string.
  cbn [stdin stdout]. rewrite H. reflexivity.
Qed.

Lemma get_double_input_fuel (message : string) (con : console) :
  get_double_input strtod message con <> Out_of_fuel.
Proof. apply get_double_input_loop_fuel. lia. Qed.

(** X21.  The option type [get_user_input] hands to [main], and [main] to
    the engine, is 'c' or 'p': the out-of-range types that
    [calculateOption] would price as puts never reach it from the
    keyboard. *)
Theorem get_user_input_type (con : console) :
  match get_user_input strtod con with
  | Returns (_, _, _, _, _, type) _ => type = "c"%char \/ type = "p"%char
  | Out_of_fuel => False
  | Diverges | Undefined _ => True
  end.
Proof.
  unfold get_user_input, io_bind.
  repeat
    match goal with
    | |- context [get_double_input strtod ?m ?c] =>
        let E := fresh "E" in
        destruct (get_double_input strtod m c) eqn:E;
        [ | exact I | exact I | exact (get_double_input_fuel _ _ E) ]
    end.
  match goal with
  | |- context [get_char_input ?m None ?c] =>
      pose proof (get_char_input_outcome m None c) as H;
      destruct (get_char_input m None c)
  end; try exact I; try exact H.
Qed.

End StrtodFacts.

Lemma validate_input_accepts_whole_text_witness :
  validate_input (fun text => (0, length text)) (list_ascii_of_string "1")
  = (0, true)
  <-> list_ascii_of_string "1" <> []
      /\ (fun text : list ascii => (0, length text)) (list_ascii_of_string "1")
         = (0, length (list_ascii_of_string "1")).
Proof.
  apply (validate_input_accepts_whole_text
           (fun text => (0, length text)) (list_ascii_of_string "1") 0).
  reflexivity.
Defined.

Lemma get_double_input_overflow_witness :
  get_double_input (fun _ => (0, 0%nat)) "S: "
    {| stdin := list_ascii_of_string " " ++ repeat "1"%char 100 ++ [];
       stdout := [] |}
  = Undefined Buffer_overflow.
Proof.
  apply (get_double_input_overflow (fun _ => (0, 0%nat)) "S: "
           (list_ascii_of_string " ") (repeat "1"%char 100) [] []).
  - reflexivity.
  - reflexivity.
  - exact I.
  - simpl. lia.
Defined.

Lemma get_double_input_blank_witness :
  get_double_input (fun _ => (0, 0%nat)) "S: "
    {| stdin := list_ascii_of_string "  "; stdout := [] |}
  = Undefined Uninitialised_read.
Proof.
  apply (get_double_input_blank (fun _ => (0, 0%nat)) "S: "
           {| stdin := list_ascii_of_string "  "; stdout := [] |}).
  reflexivity.
Defined.

(** ** The words of the input *)

Lemma skip_space_word (token rest : list ascii) :
  is_word token = true -> skip_space (token ++ rest) = token ++ rest.
Proof.
  destruct token as [| ch token]; [discriminate |].
  cbn [is_word forallb]. intros H. apply andb_prop in H. destruct H as [H _].
  unfold not_space in H. apply negb_true_iff in H.
  cbn [app skip_space]. rewrite H. reflexivity.
Qed.

Lemma is_word_not_space (token : list ascii) :
  is_word token = true -> forallb not_space token = true.
Proof. destruct token; [discriminate | exact (fun H => H)]. Qed.

Lemma is_word_end_spec (rest : list ascii) :
  is_word_end rest = true ->
  match rest with [] => True | ch :: _ => isspace ch = true end.
Proof. destruct rest; [exact (fun _ => I) | exact (fun H => H)]. Qed.

Lemma scanf_string_word (blank token rest : list ascii) (out : list string) :
  forallb isspace blank = true -> is_word token = true ->
  is_word_end rest = true ->
  scanf_string {| stdin := blank ++ token ++ rest; stdout := out |}
  = Returns (Some token) {| stdin := rest; stdout := out |}.
Proof.
  intros Hb Hw He. unfold scanf_string. cbn [stdin stdout].
  rewrite (skip_space_app _ _ Hb), (skip_space_word _ _ Hw).
  pose proof (read_token_app token rest (is_word_not_space _ Hw)
                (is_word_end_spec _ He)) as Hr.
  destruct token as [| ch token]; [discriminate Hw |].
  cbn [app] in *. rewrite Hr. reflexivity.
Qed.

Section StrtodWords.

Context {double : Type} (strtod : list ascii -> double * nat).

Lemma get_double_input_loop_first (fuel : nat) (message : string)
    (input : option (list ascii)) (blank : list ascii)
    (rejected : list (list ascii * list ascii)) (token rest : list ascii)
    (v : double) (out : list string) :
  (length (blank ++ rejected_input rejected ++ token ++ rest) < fuel)%nat ->
  forallb isspace blank = true ->
  forallb (rejected_word strtod) rejected = true ->
  is_word token = true -> (length token < 100)%nat ->
  validate_input strtod (c_string token) = (v, true) ->
  is_word_end rest = true ->
  get_double_input_loop strtod fuel message input
    {| stdin := blank ++ rejected_input rejected ++ token ++ rest;
       stdout := out |}
  = Returns v {| stdin := rest;
                 stdout := out ++ message
                           :: double_complaints message rejected |}.
Proof.
  revert fuel input blank out.
  induction rejected as [| [word gap] rejected IH];
    intros fuel input blank out Hf Hb Hr Hw Hl Hv He.
  - destruct fuel as [| fuel]; [lia |].
    cbn [rejected_input flat_map app get_double_input_loop].
    unfold io_bind, printf. cbn [stdin stdout].
    rewrite (scanf_string_word _ _ _ _ Hb Hw He).
    apply Nat.leb_gt in Hl. rewrite Hl, Hv. reflexivity.
  - cbn [forallb] in Hr. apply andb_prop in Hr. destruct Hr as [Hword Hr].
    unfold rejected_word in Hword.
    repeat (apply andb_prop in Hword; destruct Hword as [Hword ?]).
    match goal with H : forallb isspace gap = true |- _ => rename H into Hg end.
    match goal with H : negb (length gap =? 0)%nat = true |- _ =>
      rename H into Hg0 end.
    match goal with H : negb (snd _) = true |- _ => rename H into Hrej end.
    match goal with H : (length word <? 100)%nat = true |- _ =>
      rename H into Hshort end.
    destruct fuel as [| fuel]; [lia |].
    cbn [rejected_input flat_map fst snd].
    fold (rejected_input rejected).
    rewrite <- !app_assoc.
    cbn [get_double_input_loop]. unfold io_bind, printf. cbn [stdin stdout].
    assert (Hend : is_word_end
                     (gap ++ rejected_input rejected ++ token ++ rest) = true).
    { destruct gap as [| g gap]; [discriminate Hg0 |].
      cbn [app is_word_end]. cbn [forallb] in Hg.
      apply andb_prop in Hg. apply Hg. }
    rewrite (scanf_string_word _ _ _ _ Hb Hword Hend).
    apply Nat.ltb_lt, Nat.leb_gt in Hshort. rewrite Hshort.
    apply negb_true_iff in Hrej.
    destruct (validate_input strtod (c_string word)) as [v' ok].
    cbn [snd] in Hrej. subst ok. cbn [stdin stdout].
    rewrite (IH fuel (Some (c_string word)) gap); try assumption.
    + unfold double_complaints. cbn [flat_map app].
      rewrite <- !app_assoc. cbn [app]. reflexivity.
    + cbn [rejected_input flat_map fst snd] in Hf.
      fold (rejected_input rejected) in Hf.
      rewrite !length_app in *.
      destruct word; [discriminate Hword | simpl in *; lia].
Qed.

(** X18.  [get_double_input] returns the value of the first word of the
    input that [validate_input] accepts.  The input is white space, then
    words that are rejected, each followed by white space, then a word
    that is accepted; every word has fewer than 100 characters.  The
    input after the accepted word is left unread, and each rejected word
    costs one complaint and one new prompt.  The prompt holds no
    conversion specification. *)
Theorem get_double_input_first_accepted (message : string)
    (blank : list ascii) (rejected : list (list ascii * list ascii))
    (token rest : list ascii) (v : double) (out : list string) :
  percent_free message = true ->
  forallb isspace blank = true ->
  forallb (rejected_word strtod) rejected = true ->
  is_word token = true -> (length token < 100)%nat ->
  validate_input strtod (c_string token) = (v, true) ->
  is_word_end rest = true ->
  get_double_input strtod message
    {| stdin := blank ++ rejected_input rejected ++ token ++ rest;
       stdout := out |}
  = Returns v {| stdin := rest;
                 stdout := out ++ message
                           :: double_complaints message rejected |}.
Proof.
  intros _ Hb Hr Hw Hl Hv He. unfold get_double_input. cbn [stdin].
  apply get_double_input_loop_first; try assumption. lia.
Qed.

End StrtodWords.

Lemma get_double_input_first_accepted_witness :
  get_double_input ones "S: "
    {| stdin := list_ascii_of_string " "
                ++ rejected_input
                     [(list_ascii_of_string "1a", list_ascii_of_string " ")]
                ++ list_ascii_of_string "11" ++ list_ascii_of_string " rest";
       stdout := [] |}
  = Returns 2%nat
      {| stdin := list_ascii_of_string " rest";
         stdout := [] ++ "S: "%string
                   :: double_complaints "S: "
                        [(list_ascii_of_string "1a",
                          list_ascii_of_string " ")] |}.
Proof.
  apply (get_double_input_first_accepted ones "S: "
           (list_ascii_of_string " ")
           [(list_ascii_of_string "1a", list_ascii_of_string " ")]
           (list_ascii_of_string "11") (list_ascii_of_string " rest")
           2%nat []);
    try reflexivity.
  simpl. lia.
Defined.
